(** * Workspace resolution and lazy client pool of the n8n MCP server

    A shallow embedding of [src/config/workspace-config.ts] and of the
    workspace API client manager, with the properties of the workspace
    registry (discovery from the environment, default selection) and of
    the client pool (one client per workspace name).

    Conventions of the embedding.
    - A JavaScript string is a [string]. [toLowerCase], a built-in of
      the runtime that follows Unicode, is the method of the class
      [LowerCase]: the definitions and theorems hold for every
      lower-casing with the laws stated there. Concrete scenarios run
      on ASCII names with the instance [ascii_LowerCase].
    - [process.env] is an association list of (key, value) pairs in
      enumeration order: [Object.entries] is the list itself and
      [process.env[k]] is [env_get].
    - A JavaScript [Map] is an association list in insertion order; [set]
      on a key that is present replaces the value in place.
    - [string | undefined] is [option string]; a condition on such a
      value is its truthiness ([truthy], [truthy_opt]).
    - The logger is a list of emitted messages, threaded explicitly.
    - An [N8nApiClient] object is identified by its address in [heap].
    - The module variables [configInstance] and [manager] are fields of
      a [Process]; the environment is an argument of every call, since it
      can change between calls. [manager_of env] is the manager as first
      built in a process whose environment is [env]. *)

From Stdlib Require Import String Ascii List Bool Arith Lia.
From stdpp Require Import base option list gmap strings.

Local Open Scope string_scope.
Local Open Scope nat_scope.
Local Open Scope list_scope.

(** ** JavaScript strings *)

Module JsString.

(** [s.startsWith(p)] *)
Fixpoint startsWith (s p : string) {struct p} : bool :=
  match p, s with
  | EmptyString, _ => true
  | String a p', String b s' => Ascii.eqb a b && startsWith s' p'
  | String _ _, EmptyString => false
  end.

(** [s.substring(n)]: the characters from index [n] on, empty when [n]
    is past the end. *)
Fixpoint substring (n : nat) (s : string) : string :=
  match n, s with
  | 0, _ => s
  | S n', String _ s' => substring n' s'
  | S _, EmptyString => EmptyString
  end.

Definition lower_ascii (c : ascii) : ascii :=
  let n := nat_of_ascii c in
  if (65 <=? n) && (n <=? 90) then ascii_of_nat (n + 32) else c.

(** The letters [A-Z] folded to [a-z], every other character kept: what
    lower-casing does to a string of ASCII characters. *)
Fixpoint ascii_fold (s : string) : string :=
  match s with
  | EmptyString => EmptyString
  | String c s' => String (lower_ascii c) (ascii_fold s')
  end.

(** Every character of the string is an ASCII character. *)
Fixpoint is_ascii (s : string) : bool :=
  match s with
  | EmptyString => true
  | String c s' => (nat_of_ascii c <? 128) && is_ascii s'
  end.

(** [s.toLowerCase()]. [String.prototype.toLowerCase] is a built-in of
    the JavaScript runtime, not code of the repository, and it follows
    the Unicode case mappings. It is a parameter of the development, with
    the three facts about it that the code relies on: on a string of
    ASCII characters it folds [A-Z] to [a-z] and keeps the rest; its
    result is in lower case, so lower-casing it again changes nothing;
    and only the empty string lower-cases to the empty string. A [string]
    stands for a JavaScript string in an encoding that keeps ASCII
    characters as single characters (UTF-8). *)
Class LowerCase : Type := {
  toLowerCase : string -> string;
  toLowerCase_ascii :
    forall s, is_ascii s = true -> toLowerCase s = ascii_fold s;
  toLowerCase_idem :
    forall s, toLowerCase (toLowerCase s) = toLowerCase s;
  toLowerCase_nonempty :
    forall s, toLowerCase s = EmptyString -> s = EmptyString
}.

(** The lower-casing that folds ASCII letters only. Every [LowerCase]
    agrees with it on ASCII strings; it is used to run the definitions
    on concrete ASCII environments. *)
Definition ascii_LowerCase : LowerCase.
Proof.
  refine {| toLowerCase := ascii_fold |}.
  - reflexivity.
  - induction s as [|c s IH]; simpl; [reflexivity|]. rewrite IH. f_equal.
    destruct c as [[] [] [] [] [] [] [] []]; reflexivity.
  - intros [|c s]; [reflexivity|discriminate].
Defined.

(** Truthiness of a string: every string but the empty one. *)
Definition truthy (s : string) : bool := negb (String.eqb s "").

(** Truthiness of [string | undefined]. *)
Definition truthy_opt (o : option string) : bool :=
  match o with
  | Some s => truthy s
  | None => false
  end.

(** [l.join(sep)] *)
Definition join (sep : string) (l : list string) : string :=
  String.concat sep l.

End JsString.
Import JsString.

(** ** The process environment *)

Definition Env : Type := list (string * string).

(** [process.env[k]] *)
Fixpoint env_get (env : Env) (k : string) : option string :=
  match env with
  | [] => None
  | (k', v) :: env' => if String.eqb k' k then Some v else env_get env' k
  end.

(** ** JavaScript [Map] with string keys, in insertion order *)

Abbreviation JsMap V := (list (string * V)) (only parsing).

Section OrderedMap.
Context {V : Type}.

Fixpoint map_set (k : string) (v : V) (m : JsMap V) : JsMap V :=
  match m with
  | [] => [(k, v)]
  | (k', v') :: m' =>
      if String.eqb k' k then (k, v) :: m' else (k', v') :: map_set k v m'
  end.

Fixpoint map_get (k : string) (m : JsMap V) : option V :=
  match m with
  | [] => None
  | (k', v) :: m' => if String.eqb k' k then Some v else map_get k m'
  end.

Definition map_has (k : string) (m : JsMap V) : bool :=
  match map_get k m with
  | Some _ => true
  | None => false
  end.

Definition map_size (m : JsMap V) : nat := length m.

Definition map_keys (m : JsMap V) : list string := map fst m.
End OrderedMap.

(** ** workspace-config.ts *)

Record WorkspaceConfig : Type := mkWorkspaceConfig {
  name : string;
  url : string;
  token : string;
  urlEnvVar : string;
  tokenEnvVar : string
}.

Record MultiWorkspaceConfig : Type := mkMultiWorkspaceConfig {
  workspaces : JsMap WorkspaceConfig;
  defaultWorkspace : option string
}.

Definition urlPrefix : string := "N8N_URL_".
Definition tokenPrefix : string := "N8N_TOKEN_".

(** The message of the [logger.warn] call in the scan. *)
Definition missing_token_warning (workspaceName tokenEnvVar : string) : string :=
  "Workspace '" +:+ workspaceName +:+ "' has URL but missing token ("
    +:+ tokenEnvVar +:+ "), skipping".

(** One iteration of the loop over [Object.entries(process.env)]; the
    state is the map built so far and the warnings logged so far. *)
Definition scan_step {L : LowerCase} (env : Env)
    (st : JsMap WorkspaceConfig * list string) (entry : string * string)
    : JsMap WorkspaceConfig * list string :=
  let '(workspaces, log) := st in
  let '(envVar, value) := entry in
  if startsWith envVar urlPrefix && truthy value then
    let workspaceName :=
      toLowerCase (substring (String.length urlPrefix) envVar) in
    let tokenEnvVar :=
      tokenPrefix +:+ substring (String.length urlPrefix) envVar in
    match env_get env tokenEnvVar with
    | Some token =>
        if negb (truthy workspaceName) || negb (truthy token) then
          if negb (truthy token)
          then (workspaces, log ++ [missing_token_warning workspaceName tokenEnvVar])
          else (workspaces, log)
        else
          (map_set workspaceName
             {| name := workspaceName; url := value; token := token;
                urlEnvVar := envVar; tokenEnvVar := tokenEnvVar |}
             workspaces,
           log)
    | None =>
        (workspaces, log ++ [missing_token_warning workspaceName tokenEnvVar])
    end
  else (workspaces, log).

(** The scan of all environment variables for the [N8N_URL_*] pattern. *)
Definition scan {L : LowerCase} (env : Env) : JsMap WorkspaceConfig * list string :=
  fold_left (scan_step env) env ([], []).

(** The single-instance fallback, tried when the scan found nothing. *)
Definition fallback (env : Env) (workspaces : JsMap WorkspaceConfig)
    : JsMap WorkspaceConfig :=
  if map_size workspaces =? 0 then
    match env_get env "N8N_API_URL", env_get env "N8N_API_KEY" with
    | Some fallbackUrl, Some fallbackKey =>
        if truthy fallbackUrl && truthy fallbackKey then
          map_set "default"
            {| name := "default"; url := fallbackUrl; token := fallbackKey;
               urlEnvVar := "N8N_API_URL"; tokenEnvVar := "N8N_API_KEY" |}
            workspaces
        else workspaces
    | _, _ => workspaces
    end
  else workspaces.

(** [workspaces.keys().next().value ?? null] under [workspaces.size > 0] *)
Definition first_key (workspaces : JsMap WorkspaceConfig) : option string :=
  if 0 <? map_size workspaces then head (map_keys workspaces) else None.

Definition determine_default {L : LowerCase} (env : Env) (workspaces : JsMap WorkspaceConfig)
    : option string :=
  match toLowerCase <$> env_get env "N8N_DEFAULT_WORKSPACE" with
  | Some envDefault =>
      if truthy envDefault && map_has envDefault workspaces
      then Some envDefault
      else first_key workspaces
  | None => first_key workspaces
  end.

(** [loadWorkspaceConfig()], with the environment it reads as an argument
    and the warnings it logs as a second result. *)
Definition loadWorkspaceConfig {L : LowerCase} (env : Env) : MultiWorkspaceConfig * list string :=
  let '(scanned, log) := scan env in
  let workspaces := fallback env scanned in
  ({| workspaces := workspaces;
      defaultWorkspace := determine_default env workspaces |},
   log).

(** The registry and the diagnostics of a run of [loadWorkspaceConfig]. *)
Definition registry_of {L : LowerCase} (env : Env) : MultiWorkspaceConfig :=
  (loadWorkspaceConfig env).1.
Definition warnings_of {L : LowerCase} (env : Env) : list string :=
  (loadWorkspaceConfig env).2.

(** [getWorkspace(config, name?)] *)
Definition getWorkspace {L : LowerCase} (config : MultiWorkspaceConfig) (name : option string)
    : option WorkspaceConfig :=
  let workspaceName :=
    match toLowerCase <$> name with
    | Some n => if truthy n then Some n else defaultWorkspace config
    | None => defaultWorkspace config
    end in
  match workspaceName with
  | Some n => if truthy n then map_get n (workspaces config) else None
  | None => None
  end.

Definition isMultiWorkspaceMode (config : MultiWorkspaceConfig) : bool :=
  1 <? map_size (workspaces config).

Definition getAvailableWorkspaces (config : MultiWorkspaceConfig) : list string :=
  map_keys (workspaces config).

Record InstanceContext : Type := mkInstanceContext {
  n8nApiUrl : string;
  n8nApiKey : string;
  instanceId : string
}.

Definition workspaceToInstanceContext (workspace : WorkspaceConfig)
    : InstanceContext :=
  {| n8nApiUrl := url workspace;
     n8nApiKey := token workspace;
     instanceId := "workspace-" +:+ name workspace |}.

(** ** The workspace API client manager *)

(** What the client constructor receives. *)
Record N8nApiClient : Type := mkN8nApiClient {
  baseUrl : string;
  apiKey : string
}.

(** The manager object together with the part of the runtime it acts on:
    [heap] holds every [N8nApiClient] constructed so far, a client handle
    is the address (index) of its object, and [debugLog] holds the
    messages of [logger.debug]. *)
Record ManagerState : Type := mkManagerState {
  clients : gmap string nat;
  workspaceConfig : MultiWorkspaceConfig;
  heap : list N8nApiClient;
  debugLog : list string
}.

(** The parameter descriptor of [getWorkspaceParamSchema]. *)
Record ParamSchema : Type := mkParamSchema {
  type : string;
  description : string;
  enum : list string
}.

Definition no_workspace_configured : string :=
  "No n8n workspace configured. Set N8N_URL_* and N8N_TOKEN_* env vars, or N8N_API_URL and N8N_API_KEY for single-instance mode.".

Module WorkspaceApiClientManager.

(** The constructor; [config] is the result of [getWorkspaceConfig()]. *)
Definition new (config : MultiWorkspaceConfig) (heap0 : list N8nApiClient)
    (log0 : list string) : ManagerState :=
  {| clients := ∅; workspaceConfig := config;
     heap := heap0; debugLog := log0 |}.

Definition created_message (workspaceName : string) : string :=
  "Created API client for workspace '" +:+ workspaceName +:+ "'".

Definition getOrCreateClient (workspace : WorkspaceConfig) (st : ManagerState)
    : nat * ManagerState :=
  match clients st !! name workspace with
  | Some client => (client, st)
  | None =>
      let client := length (heap st) in
      (client,
       {| clients := <[name workspace := client]> (clients st);
          workspaceConfig := workspaceConfig st;
          heap := heap st ++ [{| baseUrl := url workspace;
                                 apiKey := token workspace |}];
          debugLog := debugLog st ++ [created_message (name workspace)] |})
  end.

Definition getClient {L : LowerCase} (workspaceName : option string) (st : ManagerState)
    : option nat * ManagerState :=
  match getWorkspace (workspaceConfig st) workspaceName with
  | None => (None, st)
  | Some workspace =>
      let '(client, st') := getOrCreateClient workspace st in
      (Some client, st')
  end.

Definition getInstanceContext {L : LowerCase} (st : ManagerState)
    (workspaceName : option string) : option InstanceContext :=
  match getWorkspace (workspaceConfig st) workspaceName with
  | None => None
  | Some workspace => Some (workspaceToInstanceContext workspace)
  end.

Definition isMultiWorkspace (st : ManagerState) : bool :=
  isMultiWorkspaceMode (workspaceConfig st).

Definition getAvailableWorkspaces (st : ManagerState) : list string :=
  getAvailableWorkspaces (workspaceConfig st).

Definition getDefaultWorkspace (st : ManagerState) : option string :=
  defaultWorkspace (workspaceConfig st).

Definition getWorkspaceConfig {L : LowerCase} (st : ManagerState)
    (workspaceName : option string) : option WorkspaceConfig :=
  getWorkspace (workspaceConfig st) workspaceName.

Definition getWorkspaceNotFoundError (st : ManagerState)
    (workspaceName : option string) : string :=
  let available := getAvailableWorkspaces st in
  match workspaceName with
  | Some n =>
      if truthy n then
        "Workspace '" +:+ n +:+ "' not found. Available workspaces: "
          +:+ (if truthy (join ", " available)
               then join ", " available else "none")
      else no_workspace_configured
  | None => no_workspace_configured
  end.

End WorkspaceApiClientManager.

(** The manager singleton as first built in a process whose environment
    is [env]: [getWorkspaceConfig()] loads the registry from [env]. *)
Definition manager_of {L : LowerCase} (env : Env) : ManagerState :=
  WorkspaceApiClientManager.new (registry_of env) [] [].

Definition resolveWorkspaceContext {L : LowerCase} (manager : ManagerState)
    (workspaceName : option string) : option InstanceContext :=
  WorkspaceApiClientManager.getInstanceContext manager workspaceName.

Definition shouldShowWorkspaceParam (manager : ManagerState) : bool :=
  WorkspaceApiClientManager.isMultiWorkspace manager.

Definition getWorkspaceParamSchema (manager : ManagerState) : option ParamSchema :=
  if negb (WorkspaceApiClientManager.isMultiWorkspace manager) then None
  else
    let workspaces := WorkspaceApiClientManager.getAvailableWorkspaces manager in
    let defaultWs := WorkspaceApiClientManager.getDefaultWorkspace manager in
    Some {| type := "string";
            description :=
              "Workspace to use. Available: " +:+ join ", " workspaces
                +:+ (if truthy_opt defaultWs
                     then ". Default: " +:+ default "" defaultWs else "");
            enum := workspaces |}.

(** A run of [getOrCreateClient] calls, in order, with their results. *)
Fixpoint run_calls (calls : list WorkspaceConfig) (st : ManagerState)
    : list nat * ManagerState :=
  match calls with
  | [] => ([], st)
  | w :: calls' =>
      let '(c, st1) := WorkspaceApiClientManager.getOrCreateClient w st in
      let '(cs, st2) := run_calls calls' st1 in
      (c :: cs, st2)
  end.

(** ** describeWorkspaceConfig and the module-level singletons *)

(** The line break of the template literals. *)
Definition newline : string := String "010"%char "".

(** [describeWorkspaceConfig(config)] *)
Definition describeWorkspaceConfig (config : MultiWorkspaceConfig) : string :=
  let workspaceList := map_keys (workspaces config) in
  if length workspaceList =? 0 then
    "Workspace config: No workspaces configured (missing N8N_URL_* + N8N_TOKEN_* or N8N_API_URL + N8N_API_KEY env vars)"
  else if (length workspaceList =? 1)
          && match head workspaceList with
             | Some k => String.eqb k "default"
             | None => false
             end then
    "Workspace config: Single workspace mode (using N8N_API_URL + N8N_API_KEY)"
  else
    "Workspace config: Multi-workspace mode" +:+ newline
      +:+ "  Available: " +:+ join ", " workspaceList +:+ newline
      +:+ "  Default: "
      +:+ (if truthy_opt (defaultWorkspace config)
           then default "" (defaultWorkspace config) else "none").

(** The two private fields of a [WorkspaceApiClientManager] object. *)
Record ManagerObject : Type := mkManagerObject {
  mo_clients : gmap string nat;
  mo_workspaceConfig : MultiWorkspaceConfig
}.

(** The state of a process: the module variables [configInstance] and
    [manager], the client objects constructed so far and the three
    logger channels. *)
Record Process : Type := mkProcess {
  configInstance : option MultiWorkspaceConfig;
  manager : option ManagerObject;
  proc_heap : list N8nApiClient;
  proc_warn : list string;
  proc_info : list string;
  proc_debug : list string
}.

(** A process in which nothing was loaded yet. *)
Definition fresh_process : Process :=
  {| configInstance := None; manager := None; proc_heap := [];
     proc_warn := []; proc_info := []; proc_debug := [] |}.

(** [getWorkspaceConfig()] in a process whose environment is [env]. *)
Definition getWorkspaceConfig {L : LowerCase} (env : Env) (p : Process)
    : MultiWorkspaceConfig * Process :=
  match configInstance p with
  | Some config => (config, p)
  | None =>
      let '(config, warnings) := loadWorkspaceConfig env in
      (config,
       {| configInstance := Some config; manager := manager p;
          proc_heap := proc_heap p;
          proc_warn := proc_warn p ++ warnings;
          proc_info := proc_info p ++ [describeWorkspaceConfig config];
          proc_debug := proc_debug p |})
  end.

(** [resetWorkspaceConfig()] *)
Definition resetWorkspaceConfig (p : Process) : Process :=
  {| configInstance := None; manager := manager p;
     proc_heap := proc_heap p; proc_warn := proc_warn p;
     proc_info := proc_info p; proc_debug := proc_debug p |}.

(** [getWorkspaceApiClientManager()]: the manager object of the process,
    constructed on first use from [getWorkspaceConfig()]. *)
Definition getWorkspaceApiClientManager {L : LowerCase} (env : Env) (p : Process)
    : ManagerObject * Process :=
  match manager p with
  | Some mo => (mo, p)
  | None =>
      let '(config, p1) := getWorkspaceConfig env p in
      let mo := {| mo_clients := ∅; mo_workspaceConfig := config |} in
      (mo,
       {| configInstance := configInstance p1; manager := Some mo;
          proc_heap := proc_heap p1; proc_warn := proc_warn p1;
          proc_info := proc_info p1; proc_debug := proc_debug p1 |})
  end.

(** [resetWorkspaceApiClientManager()] *)
Definition resetWorkspaceApiClientManager (p : Process) : Process :=
  {| configInstance := configInstance p; manager := None;
     proc_heap := proc_heap p; proc_warn := proc_warn p;
     proc_info := proc_info p; proc_debug := proc_debug p |}.

(** The manager object seen with the heap and the debug log of the
    process, and the process after a method call left the state [st]. *)
Definition manager_state (mo : ManagerObject) (p : Process) : ManagerState :=
  {| clients := mo_clients mo; workspaceConfig := mo_workspaceConfig mo;
     heap := proc_heap p; debugLog := proc_debug p |}.

Definition write_back (st : ManagerState) (p : Process) : Process :=
  {| configInstance := configInstance p;
     manager := Some {| mo_clients := clients st;
                        mo_workspaceConfig := workspaceConfig st |};
     proc_heap := heap st; proc_warn := proc_warn p;
     proc_info := proc_info p; proc_debug := debugLog st |}.

(** The exported helpers and [getClient], called through the singleton. *)
Module Singleton.

Definition resolveWorkspaceContext {L : LowerCase} (env : Env) (workspaceName : option string)
    (p : Process) : option InstanceContext * Process :=
  let '(mo, p1) := getWorkspaceApiClientManager env p in
  (WorkspaceApiClientManager.getInstanceContext (manager_state mo p1) workspaceName,
   p1).

Definition shouldShowWorkspaceParam {L : LowerCase} (env : Env) (p : Process) : bool * Process :=
  let '(mo, p1) := getWorkspaceApiClientManager env p in
  (WorkspaceApiClientManager.isMultiWorkspace (manager_state mo p1), p1).

Definition getWorkspaceParamSchema {L : LowerCase} (env : Env) (p : Process)
    : option ParamSchema * Process :=
  let '(mo, p1) := getWorkspaceApiClientManager env p in
  (getWorkspaceParamSchema (manager_state mo p1), p1).

Definition getClient {L : LowerCase} (env : Env) (workspaceName : option string) (p : Process)
    : option nat * Process :=
  let '(mo, p1) := getWorkspaceApiClientManager env p in
  let '(client, st) :=
    WorkspaceApiClientManager.getClient workspaceName (manager_state mo p1) in
  (client, write_back st p1).

End Singleton.

(** A run of [getClient] calls on a manager, in order, with their results. *)
Fixpoint run_getClient {L : LowerCase} (names : list (option string)) (st : ManagerState)
    : list (option nat) * ManagerState :=
  match names with
  | [] => ([], st)
  | n :: names' =>
      let '(c, st1) := WorkspaceApiClientManager.getClient n st in
      let '(cs, st2) := run_getClient names' st1 in
      (c :: cs, st2)
  end.

(** The client handles of the pool are addresses of constructed objects
    and different names have different handles. *)
Definition pool_alloc (st : ManagerState) : Prop :=
  (forall n h, clients st !! n = Some h -> h < length (heap st))
  /\ (forall n1 n2 h, clients st !! n1 = Some h -> clients st !! n2 = Some h ->
        n1 = n2).

(** Each handle of the pool holds the url and the token of the registry
    entry of its name. *)
Definition pool_bound (st : ManagerState) : Prop :=
  forall n h, clients st !! n = Some h ->
    exists ws, map_get n (workspaces (workspaceConfig st)) = Some ws
               /\ heap st !! h = Some {| baseUrl := url ws; apiKey := token ws |}.

(** The manager holds the registry loaded from [env] and its pool is
    well formed. *)
Definition pool_ok {L : LowerCase} (env : Env) (st : ManagerState) : Prop :=
  workspaceConfig st = registry_of env /\ pool_alloc st /\ pool_bound st.

(** ** Reference notions used to state the properties *)

(** The <NAME> suffix of an environment entry [N8N_URL_<NAME>] that is a
    valid URL/credential pair: the value is non-empty, <NAME> is
    non-empty and the paired [N8N_TOKEN_<NAME>] has a non-empty value. *)
Definition valid_suffix_of (env : Env) (entry : string * string) : option string :=
  let suffix := substring (String.length urlPrefix) entry.1 in
  if startsWith entry.1 urlPrefix && truthy entry.2 && truthy suffix
     && truthy_opt (env_get env (tokenPrefix +:+ suffix))
  then Some suffix else None.

(** The valid <NAME> suffixes among the entries [l], in enumeration
    order; credentials are looked up in [env]. *)
Definition valid_suffixes_in (env l : Env) : list string :=
  omap (valid_suffix_of env) l.

Definition valid_suffixes (env : Env) : list string :=
  valid_suffixes_in env env.

(** [N8N_URL_<NAME>] is set to [value] and forms a valid pair. *)
Definition valid_pair (env : Env) (NAME value : string) : Prop :=
  In (urlPrefix +:+ NAME, value) env /\ NAME <> "" /\ value <> ""
  /\ exists t, env_get env (tokenPrefix +:+ NAME) = Some t /\ t <> "".

(** Both fallback variables are present and non-empty. *)
Definition fallback_available (env : Env) : bool :=
  truthy_opt (env_get env "N8N_API_URL") && truthy_opt (env_get env "N8N_API_KEY").

(** The keys passed to [workspaces.set], in call order: the lower-cased
    valid suffixes of the scan, or ["default"] when the scan inserted
    nothing and the fallback applies. *)
Definition inserted_names {L : LowerCase} (env : Env) : list string :=
  match toLowerCase <$> valid_suffixes env with
  | [] => if fallback_available env then ["default"] else []
  | names => names
  end.

(** The keys of a [Map] after [set] is called with key [k]. *)
Definition add_key (keys : list string) (k : string) : list string :=
  if bool_decide (k ∈ keys) then keys else keys ++ [k].

(** A string is in lower case. *)
Definition is_lower {L : LowerCase} (s : string) : Prop := toLowerCase s = s.

(** An entry of the registry as the scan creates it from
    [N8N_URL_<NAME>] and [N8N_TOKEN_<NAME>]. *)
Definition scanned_entry {L : LowerCase} (env : Env) (e : string * WorkspaceConfig) : Prop :=
  exists NAME value t,
    valid_pair env NAME value
    /\ env_get env (tokenPrefix +:+ NAME) = Some t
    /\ e = (toLowerCase NAME,
            {| name := toLowerCase NAME; url := value; token := t;
               urlEnvVar := urlPrefix +:+ NAME;
               tokenEnvVar := tokenPrefix +:+ NAME |}).

(** The pool invariant: the names in [created] are those for which a
    client was constructed, in construction order; each has one log line,
    one object on the heap (after the [base] objects that were there
    before the pool) and one entry in [clients]. *)
Definition pool_inv (base : nat) (created : list string) (st : ManagerState) : Prop :=
  NoDup created
  /\ debugLog st = WorkspaceApiClientManager.created_message <$> created
  /\ length (heap st) = base + length created
  /\ dom (clients st) = list_to_set created.

(** The <NAME> suffix of an environment entry [N8N_URL_<NAME>] with a
    non-empty value whose paired [N8N_TOKEN_<NAME>] is missing or empty. *)
Definition untokened_suffix_of (env : Env) (entry : string * string) : option string :=
  let suffix := substring (String.length urlPrefix) entry.1 in
  if startsWith entry.1 urlPrefix && truthy entry.2
     && negb (truthy_opt (env_get env (tokenPrefix +:+ suffix)))
  then Some suffix else None.

(** Those suffixes, one per such entry, in enumeration order. *)
Definition untokened_suffixes (env : Env) : list string :=
  omap (untokened_suffix_of env) env.

(** Every key and every value of the environment is an ASCII string. *)
Definition ascii_env (env : Env) : bool :=
  forallb (fun e => is_ascii e.1 && is_ascii e.2) env.

(** The four outcomes of one iteration of the scan on the entry
    [(envVar, value)], with the state reached and the valid suffix found:
    the entry is not a URL candidate; the candidate lacks its credential
    and is reported; the candidate has an empty name and a credential;
    the candidate is inserted. *)
Inductive scan_case {L : LowerCase} (env : Env) (ws : JsMap WorkspaceConfig) (log : list string)
    (envVar value : string)
    : JsMap WorkspaceConfig * list string -> option string -> Prop :=
| case_ignored :
    startsWith envVar urlPrefix && truthy value = false ->
    scan_case env ws log envVar value (ws, log) None
| case_missing_token (NAME : string) :
    envVar = urlPrefix +:+ NAME -> value <> "" ->
    truthy_opt (env_get env (tokenPrefix +:+ NAME)) = false ->
    scan_case env ws log envVar value
      (ws, log ++ [missing_token_warning (toLowerCase NAME) (tokenPrefix +:+ NAME)])
      None
| case_empty_name :
    envVar = urlPrefix -> value <> "" ->
    truthy_opt (env_get env tokenPrefix) = true ->
    scan_case env ws log envVar value (ws, log) None
| case_inserted (NAME t : string) :
    envVar = urlPrefix +:+ NAME -> NAME <> "" -> value <> "" ->
    env_get env (tokenPrefix +:+ NAME) = Some t -> t <> "" ->
    scan_case env ws log envVar value
      (map_set (toLowerCase NAME)
         {| name := toLowerCase NAME; url := value; token := t;
            urlEnvVar := urlPrefix +:+ NAME;
            tokenEnvVar := tokenPrefix +:+ NAME |} ws,
       log)
      (Some NAME).

(** ** Strings *)

Section StringFacts.

Context {L : LowerCase}.

Lemma toLowerCase_empty (s : string) : toLowerCase s = "" <-> s = "".
Proof.
  split; [apply toLowerCase_nonempty|].
  intros ->. now rewrite toLowerCase_ascii.
Qed.

Lemma truthy_true (s : string) : truthy s = true <-> s <> "".
Proof.
  unfold truthy. destruct (String.eqb_spec s ""); simpl; split; congruence.
Qed.

Lemma truthy_false (s : string) : truthy s = false <-> s = "".
Proof.
  unfold truthy. destruct (String.eqb_spec s ""); simpl; split; congruence.
Qed.

Lemma truthy_toLowerCase (s : string) : truthy (toLowerCase s) = truthy s.
Proof.
  destruct (truthy s) eqn:E.
  - apply truthy_true. apply truthy_true in E. now rewrite toLowerCase_empty.
  - apply truthy_false in E. subst s. now rewrite toLowerCase_ascii.
Qed.

Lemma truthy_opt_true (o : option string) :
  truthy_opt o = true <-> exists t, o = Some t /\ t <> "".
Proof.
  destruct o as [t|]; simpl.
  - rewrite truthy_true. split; [eauto|]. now intros (t' & [= ->] & ?).
  - split; [discriminate|]. now intros (t' & ? & ?).
Qed.

Lemma append_cons (a : ascii) (p x : string) :
  String a p +:+ x = String a (p +:+ x).
Proof. reflexivity. Qed.

Lemma startsWith_app (p x : string) : startsWith (p +:+ x) p = true.
Proof.
  induction p as [|a p IH]; simpl; [reflexivity|].
  now rewrite Ascii.eqb_refl, IH.
Qed.

Lemma substring_app (p x : string) : substring (String.length p) (p +:+ x) = x.
Proof. induction p as [|a p IH]; simpl; [now destruct x|exact IH]. Qed.

Lemma startsWith_split (s p : string) :
  startsWith s p = true -> s = p +:+ substring (String.length p) s.
Proof.
  revert s. induction p as [|a p IH]; intros s H; simpl in *.
  - now destruct s.
  - destruct s as [|b s]; [discriminate|].
    apply andb_true_iff in H as [Hab Hs].
    apply Ascii.eqb_eq in Hab as ->. rewrite append_cons. f_equal. now apply IH.
Qed.

Lemma length_append (s1 s2 : string) :
  String.length (s1 +:+ s2) = String.length s1 + String.length s2.
Proof.
  induction s1 as [|a s1 IH]; [reflexivity|].
  rewrite append_cons. simpl. now rewrite IH.
Qed.

Lemma length_zero (s : string) : String.length s = 0 -> s = "".
Proof. now destruct s. Qed.

Lemma append_inj_l (p x y : string) : p +:+ x = p +:+ y -> x = y.
Proof.
  induction p as [|a p IH]; [auto|].
  rewrite !append_cons. intros [= H]. auto.
Qed.

End StringFacts.

(** ** The ordered map *)

Section OrderedMapFacts.
Context {L : LowerCase}.
Context {V : Type}.
Implicit Types (m : JsMap V) (k : string) (v : V).

Lemma map_get_Some m k v : map_get k m = Some v -> In (k, v) m.
Proof.
  induction m as [|[k' v'] m IH]; simpl; [discriminate|].
  destruct (String.eqb_spec k' k) as [->|]; [intros [= ->]; now left|auto].
Qed.

Lemma map_get_None m k : map_get k m = None <-> k ∉ map_keys m.
Proof.
  induction m as [|[k' v'] m IH]; simpl.
  - split; [intros _; apply not_elem_of_nil|reflexivity].
  - rewrite not_elem_of_cons. destruct (String.eqb_spec k' k) as [->|Hne].
    + split; [discriminate|intros [? _]; congruence].
    + rewrite IH. split; [intros ?; split; congruence|now intros [_ ?]].
Qed.

Lemma map_has_true m k : map_has k m = true <-> k ∈ map_keys m.
Proof.
  unfold map_has. destruct (map_get k m) eqn:E.
  - split; [intros _|reflexivity].
    destruct (decide (k ∈ map_keys m)) as [|Hn]; [assumption|].
    apply map_get_None in Hn. congruence.
  - apply map_get_None in E. split; [discriminate|contradiction].
Qed.

Lemma map_has_false m k : map_has k m = false <-> k ∉ map_keys m.
Proof.
  rewrite <- map_has_true. destruct (map_has k m); split; congruence.
Qed.

Lemma map_keys_set m k v : map_keys (map_set k v m) = add_key (map_keys m) k.
Proof.
  unfold add_key. induction m as [|[k' v'] m IH]; simpl; [reflexivity|].
  destruct (String.eqb_spec k' k) as [->|Hne]; simpl.
  - rewrite bool_decide_eq_true_2; [reflexivity|left].
  - rewrite IH. destruct (bool_decide_reflect (k ∈ map_keys m)) as [Hin|Hnin].
    + rewrite bool_decide_eq_true_2; [reflexivity|now right].
    + rewrite bool_decide_eq_false_2; [reflexivity|].
      rewrite not_elem_of_cons. split; congruence.
Qed.

Lemma map_set_In m k v e : In e (map_set k v m) -> e = (k, v) \/ In e m.
Proof.
  induction m as [|[k' v'] m IH]; simpl.
  - intros [<-|[]]; now left.
  - destruct (String.eqb_spec k' k) as [->|Hne]; simpl.
    + intros [<-|H]; [now left|right; now right].
    + intros [<-|H]; [right; now left|].
      destruct (IH H); [now left|right; now right].
Qed.

Lemma map_get_set_eq m k v : map_get k (map_set k v m) = Some v.
Proof.
  induction m as [|[k' v'] m IH]; simpl.
  - now rewrite String.eqb_refl.
  - destruct (String.eqb_spec k' k) as [->|Hne]; simpl.
    + now rewrite String.eqb_refl.
    + destruct (String.eqb_spec k' k); [contradiction|exact IH].
Qed.

End OrderedMapFacts.

(** ** Keys in insertion order *)

Section InsertionOrder.
Context {L : LowerCase}.
Implicit Types (ns ks : list string) (x : string).

Lemma add_key_elem ks x y : y ∈ add_key ks x <-> y ∈ ks \/ y = x.
Proof.
  unfold add_key. case_bool_decide as Hx.
  - split; [now left|]. intros [?| ->]; assumption.
  - rewrite elem_of_app, list_elem_of_singleton. reflexivity.
Qed.

Lemma add_key_NoDup ks x : NoDup ks -> NoDup (add_key ks x).
Proof.
  unfold add_key. intros Hnd. case_bool_decide as Hx; [assumption|].
  apply NoDup_app. split; [assumption|]. split.
  - intros y Hy Hy'. apply list_elem_of_singleton in Hy' as ->. contradiction.
  - apply NoDup_singleton.
Qed.

Lemma fold_add_elem ns ks y :
  y ∈ fold_left add_key ns ks <-> y ∈ ks \/ y ∈ ns.
Proof.
  revert ks. induction ns as [|n ns IH]; intros ks; simpl.
  - split; [now left|]. intros [?|H]; [assumption|]. now apply elem_of_nil in H.
  - rewrite IH, add_key_elem, elem_of_cons. tauto.
Qed.

Lemma fold_add_NoDup ns ks : NoDup ks -> NoDup (fold_left add_key ns ks).
Proof.
  revert ks. induction ns as [|n ns IH]; intros ks Hnd; simpl; [assumption|].
  apply IH. now apply add_key_NoDup.
Qed.

Lemma fold_add_head ns ks :
  head (fold_left add_key ns ks)
  = match ks with [] => head ns | k :: _ => Some k end.
Proof.
  revert ks. induction ns as [|n ns IH]; intros ks; simpl.
  - now destruct ks.
  - rewrite IH. unfold add_key. destruct ks as [|k ks]; simpl.
    + reflexivity.
    + now case_bool_decide.
Qed.

Lemma fold_add_length ns :
  length (fold_left add_key ns []) = length (remove_dups ns).
Proof.
  apply Permutation_length. apply NoDup_Permutation.
  - apply fold_add_NoDup, NoDup_nil_2.
  - apply NoDup_remove_dups.
  - intros y. rewrite fold_add_elem, elem_of_remove_dups.
    split; [intros [H|H]; [now apply elem_of_nil in H|assumption]|now right].
Qed.

End InsertionOrder.

(** ** The scan *)

Section Scan.
Context {L : LowerCase}.
Variable env : Env.

Lemma scan_step_case ws log envVar value :
  scan_case env ws log envVar value
    (scan_step env (ws, log) (envVar, value))
    (valid_suffix_of env (envVar, value)).
Proof.
  unfold scan_step, valid_suffix_of. simpl fst. simpl snd.
  remember (substring (String.length urlPrefix) envVar) as NAME eqn:HN.
  destruct (startsWith envVar urlPrefix) eqn:Hp; simpl andb;
    [|now apply case_ignored; rewrite Hp].
  destruct (truthy value) eqn:Hv; simpl andb;
    [|now apply case_ignored; rewrite Hp, Hv].
  apply truthy_true in Hv. apply startsWith_split in Hp.
  rewrite <- HN in Hp. clear HN. subst envVar.
  rewrite truthy_toLowerCase.
  destruct (env_get env (tokenPrefix +:+ NAME)) as [t|] eqn:Ht; simpl truthy_opt.
  - destruct (truthy t) eqn:Htt.
    + destruct (truthy NAME) eqn:Hn; simpl.
      * apply case_inserted; try assumption; try reflexivity;
          now apply truthy_true.
      * apply truthy_false in Hn. subst NAME.
        apply case_empty_name; try assumption; try reflexivity.
        change (tokenPrefix +:+ "") with tokenPrefix in Ht.
        rewrite Ht. exact Htt.
    + rewrite orb_true_r, andb_false_r. simpl negb. cbv iota.
      apply case_missing_token; try assumption; try reflexivity.
      now rewrite Ht.
  - rewrite andb_false_r.
    apply case_missing_token; try assumption; try reflexivity. now rewrite Ht.
Qed.

Lemma scan_step_keys ws log e :
  map_keys (scan_step env (ws, log) e).1
  = match valid_suffix_of env e with
    | Some s => add_key (map_keys ws) (toLowerCase s)
    | None => map_keys ws
    end.
Proof.
  destruct e as [k v].
  destruct (scan_step_case ws log k v); simpl; auto using map_keys_set.
Qed.

Lemma scan_keys l st :
  map_keys (fold_left (scan_step env) l st).1
  = fold_left add_key (toLowerCase <$> valid_suffixes_in env l) (map_keys st.1).
Proof.
  revert st. induction l as [|e l IH]; intros [ws log]; [reflexivity|].
  cbn [fold_left]. rewrite IH, scan_step_keys.
  unfold valid_suffixes_in. cbn [omap list_omap].
  now destruct (valid_suffix_of env e).
Qed.

Lemma valid_suffixes_in_spec l NAME :
  NAME ∈ valid_suffixes_in env l
  <-> exists v, In (urlPrefix +:+ NAME, v) l /\ NAME <> "" /\ v <> ""
        /\ exists t, env_get env (tokenPrefix +:+ NAME) = Some t /\ t <> "".
Proof.
  unfold valid_suffixes_in. induction l as [|[k v] l IH].
  - split; [intros H; now apply elem_of_nil in H|now intros (v & [] & _)].
  - cbn [omap list_omap In].
    assert (Hrest : (exists v0, In (urlPrefix +:+ NAME, v0) l /\ NAME <> ""
               /\ v0 <> "" /\ exists t,
                 env_get env (tokenPrefix +:+ NAME) = Some t /\ t <> "")
             -> exists v0, ((k, v) = (urlPrefix +:+ NAME, v0)
                            \/ In (urlPrefix +:+ NAME, v0) l) /\ NAME <> ""
               /\ v0 <> "" /\ exists t,
                 env_get env (tokenPrefix +:+ NAME) = Some t /\ t <> "").
    { intros (v0 & ? & ?). exists v0. split; [now right|assumption]. }
    destruct (scan_step_case [] [] k v) as [Hc|N Hk Hv Ht|Hk Hv Ht|N t Hk HN Hv Ht Htt].
    + rewrite IH. split; [exact Hrest|].
      intros (v0 & [[= -> ->]|Hin] & HN & Hv & Ht); [|exists v0; eauto 10].
      rewrite startsWith_app in Hc. apply truthy_true in Hv.
      rewrite Hv in Hc. discriminate.
    + rewrite IH. split; [exact Hrest|].
      intros (v0 & [[= Hk' ->]|Hin] & HN & Hv' & t & Ht' & Htt); [|exists v0; eauto 10].
      rewrite Hk in Hk'. apply append_inj_l in Hk' as ->.
      rewrite Ht' in Ht. simpl in Ht. apply truthy_false in Ht. contradiction.
    + rewrite IH. split; [exact Hrest|].
      intros (v0 & [[= Hk' ->]|Hin] & HN & Hv' & Ht'); [|exists v0; eauto 10].
      rewrite Hk in Hk'. change urlPrefix with (urlPrefix +:+ "") in Hk' at 1.
      apply append_inj_l in Hk'. congruence.
    + rewrite elem_of_cons, IH. split.
      * intros [->|H]; [|now apply Hrest].
        exists v. split; [left; congruence|]. eauto.
      * intros (v0 & [[= Hk' ->]|Hin] & Htail); [|right; now exists v0].
        rewrite Hk in Hk'. apply append_inj_l in Hk'. now left.
Qed.

Lemma scan_entries l st :
  (forall e, In e l -> In e env) ->
  (forall x, In x st.1 -> scanned_entry env x) ->
  forall x, In x (fold_left (scan_step env) l st).1 -> scanned_entry env x.
Proof.
  revert st. induction l as [|[k v] l IH]; intros [ws log] Hl Hst;
    [exact Hst|].
  cbn [fold_left]. apply IH; [intros e He; apply Hl; now right|].
  assert (Hkv : In (k, v) env) by (apply Hl; now left).
  destruct (scan_step_case ws log k v) as [| | |N t Hk HN Hv Ht Htt];
    simpl; try exact Hst.
  intros x Hx. apply map_set_In in Hx as [->|Hx]; [|now apply Hst].
  exists N, v, t. subst k. repeat split; eauto.
Qed.

Lemma scan_log l st w :
  In w (fold_left (scan_step env) l st).2
  <-> In w st.2
      \/ exists NAME v, In (urlPrefix +:+ NAME, v) l /\ v <> ""
           /\ truthy_opt (env_get env (tokenPrefix +:+ NAME)) = false
           /\ w = missing_token_warning (toLowerCase NAME) (tokenPrefix +:+ NAME).
Proof.
  revert st. induction l as [|[k v] l IH]; intros [ws log].
  - simpl. split; [now left|]. intros [?|(? & ? & [] & _)]. assumption.
  - cbn [fold_left In]. rewrite IH. clear IH.
    destruct (scan_step_case ws log k v) as [Hc|N Hk Hv Ht|Hk Hv Ht|N t Hk HN Hv Ht Htt];
      simpl.
    + split.
      * intros [?|(N & v0 & ? & ?)]; [now left|right].
        exists N, v0. split; [now right|assumption].
      * intros [?|(N & v0 & [[= -> ->]|?] & Hv & ?)]; [now left| |right; eauto].
        rewrite startsWith_app in Hc. apply truthy_true in Hv.
        rewrite Hv in Hc. discriminate.
    + rewrite in_app_iff. simpl. split.
      * intros [[?|[<-|[]]]|(N' & v0 & ? & ?)]; [now left|right|right].
        -- exists N, v. subst k. split; [now left|]. auto.
        -- exists N', v0. split; [now right|assumption].
      * intros [?|(N' & v0 & [[= Hk' ->]|?] & Hv' & Ht' & ->)];
          [left; now left| |right; eauto 10].
        rewrite Hk in Hk'. apply append_inj_l in Hk' as ->.
        left; right; now left.
    + split.
      * intros [?|(N & v0 & ? & ?)]; [now left|right].
        exists N, v0. split; [now right|assumption].
      * intros [?|(N & v0 & [[= Hk' ->]|?] & Hv' & Ht' & ?)];
          [now left| |right; eauto 10].
        rewrite Hk in Hk'. change urlPrefix with (urlPrefix +:+ "") in Hk' at 1.
        apply append_inj_l in Hk' as <-.
        change (tokenPrefix +:+ "") with tokenPrefix in Ht'. congruence.
    + split.
      * intros [?|(N' & v0 & ? & ?)]; [now left|right].
        exists N', v0. split; [now right|assumption].
      * intros [?|(N' & v0 & [[= Hk' ->]|?] & Hv' & Ht' & ?)];
          [now left| |right; eauto 10].
        rewrite Hk in Hk'. apply append_inj_l in Hk' as <-.
        rewrite Ht in Ht'. simpl in Ht'. apply truthy_true in Htt. congruence.
Qed.

End Scan.

(** ** The registry built by [loadWorkspaceConfig] *)

Section Registry.
Context {L : LowerCase}.
Variable env : Env.

Lemma registry_workspaces :
  workspaces (registry_of env) = fallback env (scan env).1.
Proof. unfold registry_of, loadWorkspaceConfig. now destruct (scan env). Qed.

Lemma registry_default :
  defaultWorkspace (registry_of env)
  = determine_default env (workspaces (registry_of env)).
Proof. unfold registry_of, loadWorkspaceConfig. now destruct (scan env). Qed.

Lemma warnings_scan : warnings_of env = (scan env).2.
Proof. unfold warnings_of, loadWorkspaceConfig. now destruct (scan env). Qed.

Lemma scan_map_keys :
  map_keys (scan env).1
  = fold_left add_key (toLowerCase <$> valid_suffixes env) [].
Proof. unfold scan. now rewrite scan_keys. Qed.

Lemma scan_empty : (scan env).1 = [] <-> valid_suffixes env = [].
Proof.
  split; intros H.
  - pose proof scan_map_keys as K. rewrite H in K. simpl in K.
    destruct (valid_suffixes env) as [|s l]; [reflexivity|exfalso].
    assert (Hin : toLowerCase s ∈ fold_left add_key (toLowerCase <$> s :: l) [])
      by (apply fold_add_elem; right; left).
    rewrite <- K in Hin. now apply elem_of_nil in Hin.
  - pose proof scan_map_keys as K. rewrite H in K. simpl in K.
    now destruct (scan env).1.
Qed.

Lemma fallback_available_true :
  fallback_available env = true
  <-> exists u k, env_get env "N8N_API_URL" = Some u /\ u <> ""
        /\ env_get env "N8N_API_KEY" = Some k /\ k <> "".
Proof.
  unfold fallback_available. rewrite andb_true_iff, !truthy_opt_true. split.
  - intros [(u & ? & ?) (k & ? & ?)]. eauto 10.
  - intros (u & k & ? & ? & ? & ?). eauto 10.
Qed.

Lemma fallback_empty :
  fallback env []
  = if fallback_available env then
      match env_get env "N8N_API_URL", env_get env "N8N_API_KEY" with
      | Some u, Some k =>
          [("default",
            {| name := "default"; url := u; token := k;
               urlEnvVar := "N8N_API_URL"; tokenEnvVar := "N8N_API_KEY" |})]
      | _, _ => []
      end
    else [].
Proof.
  unfold fallback, fallback_available. simpl.
  destruct (env_get env "N8N_API_URL") as [u|]; [|reflexivity].
  destruct (env_get env "N8N_API_KEY") as [k|]; simpl;
    [|now rewrite andb_false_r].
  now destruct (truthy u && truthy k).
Qed.

Lemma fallback_nonempty (ws : JsMap WorkspaceConfig) :
  ws <> [] -> fallback env ws = ws.
Proof. unfold fallback, map_size. now destruct ws. Qed.

Lemma registry_keys :
  map_keys (workspaces (registry_of env))
  = fold_left add_key (inserted_names env) [].
Proof.
  rewrite registry_workspaces. unfold inserted_names.
  destruct (valid_suffixes env) as [|s l] eqn:E.
  - apply scan_empty in E. rewrite E, fallback_empty. simpl.
    destruct (fallback_available env) eqn:F; [|reflexivity].
    apply fallback_available_true in F as (u & k & -> & _ & -> & _).
    reflexivity.
  - rewrite fallback_nonempty, scan_map_keys, E; [reflexivity|].
    rewrite scan_empty, E. discriminate.
Qed.

Lemma registry_key_inserted k :
  k ∈ map_keys (workspaces (registry_of env)) <-> k ∈ inserted_names env.
Proof.
  rewrite registry_keys, fold_add_elem. split; [|now right].
  intros [H|H]; [now apply elem_of_nil in H|assumption].
Qed.

Lemma inserted_names_spec k :
  k ∈ inserted_names env
  <-> (exists NAME v, valid_pair env NAME v /\ k = toLowerCase NAME)
      \/ (k = "default" /\ valid_suffixes env = []
          /\ fallback_available env = true).
Proof.
  assert (Hv : k ∈ toLowerCase <$> valid_suffixes env
               <-> exists NAME v, valid_pair env NAME v /\ k = toLowerCase NAME).
  { rewrite list_elem_of_fmap. unfold valid_suffixes, valid_pair. split.
    - intros (N & -> & HN). apply valid_suffixes_in_spec in HN as (v & ?).
      exists N, v. auto.
    - intros (N & v & ? & ->). exists N. split; [reflexivity|].
      apply valid_suffixes_in_spec. eauto. }
  unfold inserted_names. destruct (valid_suffixes env) as [|s l] eqn:E.
  - simpl. rewrite <- Hv. destruct (fallback_available env).
    + rewrite list_elem_of_singleton. split; [now right|].
      intros [H|[-> _]]; [now apply elem_of_nil in H|reflexivity].
    + split; [intros H; now apply elem_of_nil in H|].
      intros [H|(_ & _ & ?)]; [assumption|discriminate].
  - rewrite <- Hv. simpl. split; [now left|].
    intros [?|(_ & ? & _)]; [assumption|discriminate].
Qed.

Lemma inserted_names_nonempty k : k ∈ inserted_names env -> k <> "".
Proof.
  rewrite inserted_names_spec.
  intros [(N & v & (_ & HN & _) & ->)|[-> _]]; [|discriminate].
  now rewrite toLowerCase_empty.
Qed.

Lemma inserted_names_lower k : k ∈ inserted_names env -> is_lower k.
Proof.
  rewrite inserted_names_spec. unfold is_lower.
  intros [(N & v & _ & ->)|[-> _]];
    [apply toLowerCase_idem|now rewrite toLowerCase_ascii].
Qed.

Lemma registry_keys_NoDup : NoDup (map_keys (workspaces (registry_of env))).
Proof. rewrite registry_keys. apply fold_add_NoDup, NoDup_nil_2. Qed.

Lemma registry_size :
  map_size (workspaces (registry_of env))
  = length (remove_dups (inserted_names env)).
Proof.
  unfold map_size. rewrite <- fold_add_length, <- registry_keys.
  unfold map_keys. now rewrite length_map.
Qed.

Lemma registry_first_key :
  first_key (workspaces (registry_of env)) = head (inserted_names env).
Proof.
  unfold first_key. rewrite registry_keys, fold_add_head.
  pose proof registry_size as S. unfold map_size in *.
  destruct (workspaces (registry_of env)) as [|e m]; simpl in *.
  - destruct (inserted_names env) as [|n ns]; [reflexivity|exfalso].
    assert (Hn : n ∈ remove_dups (n :: ns)) by (apply elem_of_remove_dups; left).
    destruct (remove_dups (n :: ns)); [now apply elem_of_nil in Hn|discriminate].
  - reflexivity.
Qed.

(** Every entry was created by the scan from a valid pair, or is the
    fallback entry. *)
Lemma registry_entries (e : string * WorkspaceConfig) :
  In e (workspaces (registry_of env)) ->
  scanned_entry env e
  \/ (valid_suffixes env = [] /\ exists u k,
        env_get env "N8N_API_URL" = Some u /\ u <> ""
        /\ env_get env "N8N_API_KEY" = Some k /\ k <> ""
        /\ e = ("default",
                {| name := "default"; url := u; token := k;
                   urlEnvVar := "N8N_API_URL"; tokenEnvVar := "N8N_API_KEY" |})).
Proof.
  rewrite registry_workspaces.
  destruct (valid_suffixes env) as [|s l] eqn:E.
  - apply scan_empty in E. rewrite E, fallback_empty.
    destruct (fallback_available env) eqn:F; [|intros []].
    apply fallback_available_true in F as (u & k & Hu & ? & Hk & ?).
    rewrite Hu, Hk. intros [<-|[]]. right. split; [reflexivity|].
    exists u, k. auto.
  - rewrite fallback_nonempty; [|rewrite scan_empty, E; discriminate].
    intros H. left. revert e H. unfold scan.
    apply scan_entries; [auto|intros x []].
Qed.

Lemma registry_entry_name k ws :
  In (k, ws) (workspaces (registry_of env)) -> name ws = k.
Proof.
  intros H. apply registry_entries in H as [(N & v & t & _ & _ & [= -> ->])|H].
  - reflexivity.
  - destruct H as (_ & u & k' & _ & _ & _ & _ & [= -> ->]). reflexivity.
Qed.

Lemma registry_key_truthy d :
  map_has d (workspaces (registry_of env)) = true -> truthy d = true.
Proof.
  intros Hd. apply truthy_true. apply map_has_true in Hd.
  apply registry_key_inserted in Hd. now apply inserted_names_nonempty in Hd.
Qed.

Lemma first_key_head (ws : JsMap WorkspaceConfig) :
  first_key ws = head (map_keys ws).
Proof. unfold first_key, map_size. now destruct ws. Qed.

Lemma head_key_has (ws : JsMap WorkspaceConfig) d :
  head (map_keys ws) = Some d -> map_has d ws = true.
Proof.
  intros Hd. apply map_has_true.
  destruct (map_keys ws) as [|k ks]; [discriminate|].
  injection Hd as ->. left.
Qed.

Lemma registry_default_key d :
  defaultWorkspace (registry_of env) = Some d ->
  map_has d (workspaces (registry_of env)) = true.
Proof.
  rewrite registry_default. unfold determine_default.
  destruct (toLowerCase <$> env_get env "N8N_DEFAULT_WORKSPACE") as [d'|].
  - destruct (truthy d' && map_has d' (workspaces (registry_of env))) eqn:E.
    + intros [= <-]. now apply andb_true_iff in E as [_ ?].
    + rewrite first_key_head. apply head_key_has.
  - rewrite first_key_head. apply head_key_has.
Qed.

End Registry.

(** ** Properties of discovery *)

(** C2 (amended): for every environment with at least one valid
    URL/credential pair, the size of the registry equals the number of
    distinct lower-cased <NAME> suffixes among the valid pairs, and every
    key of the registry is in lower case. [valid_suffixes] lists exactly
    the suffixes of the valid pairs. *)
Theorem registry_size_distinct_names {L : LowerCase} (env : Env) :
  (exists NAME v, valid_pair env NAME v) ->
  (forall NAME, NAME ∈ valid_suffixes env <-> exists v, valid_pair env NAME v)
  /\ map_size (workspaces (registry_of env))
     = length (remove_dups (toLowerCase <$> valid_suffixes env))
  /\ Forall is_lower (map_keys (workspaces (registry_of env))).
Proof.
  intros (N & v & Hpair).
  assert (Hspec : forall NAME,
             NAME ∈ valid_suffixes env <-> exists v, valid_pair env NAME v).
  { intros NAME. unfold valid_suffixes, valid_pair.
    rewrite valid_suffixes_in_spec. reflexivity. }
  split; [exact Hspec|]. split.
  - rewrite registry_size. unfold inserted_names.
    destruct (valid_suffixes env) as [|s l] eqn:E; [|reflexivity].
    assert (HN : N ∈ @nil string) by (apply Hspec; eauto).
    now apply elem_of_nil in HN.
  - apply Forall_forall. intros k Hk.
    apply registry_key_inserted in Hk. now apply inserted_names_lower in Hk.
Qed.

(** C3: the default workspace of the registry. If the lower-cased value
    of [N8N_DEFAULT_WORKSPACE] names an entry, it is the default;
    otherwise the default is the key of the first entry of the map, which
    is the first inserted name, when there is one; with no entry there is
    no default. A default is always a key of the map. *)
Theorem default_workspace_selection {L : LowerCase} (env : Env) :
  let cfg := registry_of env in
  let selector := toLowerCase <$> env_get env "N8N_DEFAULT_WORKSPACE" in
  (forall d, selector = Some d -> map_has d (workspaces cfg) = true ->
     defaultWorkspace cfg = Some d)
  /\ ((forall d, selector = Some d -> map_has d (workspaces cfg) = false) ->
      defaultWorkspace cfg = head (map_keys (workspaces cfg))
      /\ head (map_keys (workspaces cfg)) = head (inserted_names env))
  /\ (workspaces cfg = [] -> defaultWorkspace cfg = None)
  /\ (forall d, defaultWorkspace cfg = Some d ->
        map_has d (workspaces cfg) = true).
Proof.
  intros cfg selector. subst cfg.
  rewrite registry_default. unfold determine_default. fold selector.
  split; [|split; [|split]].
  - intros d -> Hd. now rewrite (registry_key_truthy env d Hd), Hd.
  - intros Hnone. split; [|rewrite <- first_key_head; apply registry_first_key].
    destruct selector as [d|]; [|apply first_key_head].
    rewrite (Hnone d eq_refl), andb_false_r. apply first_key_head.
  - intros Hnil. rewrite Hnil. destruct selector as [d|]; [|reflexivity].
    unfold map_has. simpl. now rewrite andb_false_r.
  - intros d Hd. apply registry_default_key.
    rewrite registry_default. exact Hd.
Qed.

(** C4 (amended): when [N8N_URL_<NAME>] has a non-empty value and
    [N8N_TOKEN_<NAME>] is missing or empty, no entry is created from that
    variable (no entry of the registry records it as its [urlEnvVar]),
    the missing-token diagnostic is logged, and the lower-cased name is a
    key of the registry only if another URL variable with the same
    lower-cased suffix forms a valid pair, or the name is [default] and
    the fallback entry was created after an empty scan. *)
Theorem url_without_token_dropped {L : LowerCase} (env : Env) (NAME v : string) :
  In (urlPrefix +:+ NAME, v) env ->
  v <> "" ->
  truthy_opt (env_get env (tokenPrefix +:+ NAME)) = false ->
  let cfg := registry_of env in
  (forall k ws, In (k, ws) (workspaces cfg) -> urlEnvVar ws <> urlPrefix +:+ NAME)
  /\ In (missing_token_warning (toLowerCase NAME) (tokenPrefix +:+ NAME))
        (warnings_of env)
  /\ (map_has (toLowerCase NAME) (workspaces cfg) = true
      <-> (exists NAME' v', valid_pair env NAME' v'
             /\ toLowerCase NAME = toLowerCase NAME')
          \/ (toLowerCase NAME = "default" /\ valid_suffixes env = []
              /\ fallback_available env = true)).
Proof.
  intros Hin Hv Htok cfg. subst cfg. repeat split.
  - intros k ws Hk Heq.
    apply registry_entries in Hk as [(N & v' & t & Hp & Ht & [= -> ->])|Hk].
    + simpl in Heq. apply append_inj_l in Heq as ->.
      destruct Hp as (_ & _ & _ & t' & Ht' & Hne).
      rewrite Ht' in Htok. simpl in Htok. apply truthy_false in Htok.
      contradiction.
    + destruct Hk as (_ & u & k' & _ & _ & _ & _ & [= -> ->]).
      simpl in Heq. cbv [urlPrefix String.append] in Heq. discriminate.
  - rewrite warnings_scan. unfold scan. apply scan_log. right.
    exists NAME, v. auto.
  - rewrite map_has_true, registry_key_inserted, inserted_names_spec. tauto.
  - rewrite map_has_true, registry_key_inserted, inserted_names_spec. tauto.
Qed.

(** C5: when the scan produces no entry and both [N8N_API_URL] and
    [N8N_API_KEY] are present and non-empty, the registry has exactly one
    entry, keyed [default], whose url and token are the values of those
    two variables. *)
Theorem fallback_default_entry {L : LowerCase} (env : Env) (u k : string) :
  (scan env).1 = [] ->
  env_get env "N8N_API_URL" = Some u -> u <> "" ->
  env_get env "N8N_API_KEY" = Some k -> k <> "" ->
  workspaces (registry_of env)
  = [("default",
      {| name := "default"; url := u; token := k;
         urlEnvVar := "N8N_API_URL"; tokenEnvVar := "N8N_API_KEY" |})]
  /\ map_size (workspaces (registry_of env)) = 1.
Proof.
  intros Hscan Hu Hune Hk Hkne.
  assert (F : fallback_available env = true)
    by (apply fallback_available_true; eauto 10).
  rewrite registry_workspaces, Hscan, fallback_empty, F, Hu, Hk.
  split; reflexivity.
Qed.

(** C10 (amended): when the variable [N8N_URL_] (empty <NAME>) has a
    non-empty value, no entry is created for it, whether or not
    [N8N_TOKEN_] is set: the empty name is not a key and no entry records
    [N8N_URL_] as its [urlEnvVar]. The missing-token diagnostic for this
    candidate is emitted exactly when [N8N_TOKEN_] is missing or empty;
    when [N8N_TOKEN_] is present and non-empty the candidate is skipped
    without it. *)
Theorem empty_name_skipped {L : LowerCase} (env : Env) (v : string) :
  In (urlPrefix, v) env ->
  v <> "" ->
  let cfg := registry_of env in
  map_has "" (workspaces cfg) = false
  /\ (forall k ws, In (k, ws) (workspaces cfg) -> urlEnvVar ws <> urlPrefix)
  /\ (In (missing_token_warning "" tokenPrefix) (warnings_of env)
      <-> truthy_opt (env_get env tokenPrefix) = false).
Proof.
  intros Hin Hv cfg. subst cfg. repeat split.
  - apply map_has_false. intros Hk. apply registry_key_inserted in Hk.
    now apply inserted_names_nonempty in Hk.
  - intros k ws Hk Heq.
    apply registry_entries in Hk as [(N & v' & t & Hp & Ht & [= -> ->])|Hk].
    + simpl in Heq. change urlPrefix with (urlPrefix +:+ "") in Heq at 2.
      apply append_inj_l in Heq as ->. now destruct Hp as (_ & ? & _).
    + destruct Hk as (_ & u & k' & _ & _ & _ & _ & [= -> ->]). discriminate.
  - rewrite warnings_scan. unfold scan. rewrite scan_log.
    intros [[]|(N & v' & _ & _ & Ht & Hw)].
    assert (HN : N = "").
    { apply length_zero. apply (f_equal String.length) in Hw.
      unfold missing_token_warning in Hw.
      repeat rewrite ?length_append in Hw.
      simpl in Hw. lia. }
    now subst N.
  - intros Ht. rewrite warnings_scan. unfold scan. apply scan_log. right.
    exists "", v. rewrite toLowerCase_ascii by reflexivity.
    repeat split; assumption.
Qed.

(** ** The client pool *)

Section Pool.
Context {L : LowerCase}.
Import WorkspaceApiClientManager.

Lemma append_inj_r (x y s : string) : x +:+ s = y +:+ s -> x = y.
Proof.
  revert y. induction x as [|a x IH]; intros [|b y] H.
  - reflexivity.
  - apply (f_equal String.length) in H.
    rewrite !length_append in H. simpl in H. lia.
  - apply (f_equal String.length) in H.
    rewrite !length_append in H. simpl in H. lia.
  - rewrite !append_cons in H. injection H as -> H. f_equal. now apply IH.
Qed.

Lemma created_message_inj : Inj (=) (=) created_message.
Proof.
  intros n1 n2 H. unfold created_message in H.
  apply append_inj_l in H. now apply append_inj_r in H.
Qed.

Lemma getOrCreateClient_hit w st c :
  clients st !! name w = Some c -> getOrCreateClient w st = (c, st).
Proof. intros H. unfold getOrCreateClient. now rewrite H. Qed.

Lemma getOrCreateClient_lookup w st :
  clients (getOrCreateClient w st).2 !! name w = Some (getOrCreateClient w st).1.
Proof.
  unfold getOrCreateClient. destruct (clients st !! name w) eqn:E; simpl.
  - exact E.
  - apply lookup_insert_eq.
Qed.

Lemma getOrCreateClient_stable w st n c :
  clients st !! n = Some c -> clients (getOrCreateClient w st).2 !! n = Some c.
Proof.
  intros H. unfold getOrCreateClient.
  destruct (clients st !! name w) eqn:E; simpl; [exact H|].
  rewrite lookup_insert_ne; [exact H|congruence].
Qed.

Lemma getOrCreateClient_inv w st base created :
  pool_inv base created st ->
  exists created', pool_inv base created' (getOrCreateClient w st).2
    /\ list_to_set created' = ({[name w]} ∪ list_to_set created : gset string).
Proof.
  intros (Hnd & Hlog & Hheap & Hdom). unfold getOrCreateClient.
  destruct (clients st !! name w) eqn:E; simpl.
  - exists created. split; [repeat split; assumption|].
    assert (Hw : name w ∈ dom (clients st)) by (apply elem_of_dom; eauto).
    rewrite Hdom in Hw. symmetry.
    apply subseteq_union_1_L, singleton_subseteq_l, Hw.
  - exists (created ++ [name w]). split; [repeat split; simpl|].
    + apply NoDup_app. split; [assumption|]. split; [|apply NoDup_singleton].
      intros x Hx Hx'. apply list_elem_of_singleton in Hx' as ->.
      apply not_elem_of_dom in E. rewrite Hdom in E.
      apply E, elem_of_list_to_set, Hx.
    + now rewrite fmap_app, Hlog.
    + rewrite !length_app, Hheap. simpl. lia.
    + rewrite dom_insert_L, Hdom, list_to_set_app_L. simpl.
      rewrite union_empty_r_L. apply union_comm_L.
    + rewrite list_to_set_app_L. simpl.
      rewrite union_empty_r_L. apply union_comm_L.
Qed.

Lemma run_calls_cons w calls st :
  run_calls (w :: calls) st
  = ((getOrCreateClient w st).1
       :: (run_calls calls (getOrCreateClient w st).2).1,
     (run_calls calls (getOrCreateClient w st).2).2).
Proof.
  simpl. destruct (getOrCreateClient w st) as [c st1]. simpl.
  now destruct (run_calls calls st1).
Qed.

Lemma run_calls_stable calls st n c :
  clients st !! n = Some c ->
  clients (run_calls calls st).2 !! n = Some c
  /\ forall i w, calls !! i = Some w -> name w = n ->
       (run_calls calls st).1 !! i = Some c.
Proof.
  revert st. induction calls as [|w0 calls IH]; intros st Hn.
  - split; [exact Hn|]. intros i w Hi. now rewrite lookup_nil in Hi.
  - rewrite run_calls_cons. simpl.
    destruct (IH _ (getOrCreateClient_stable w0 st n c Hn)) as [IH1 IH2].
    split; [exact IH1|]. intros [|i] w Hi Hw; simpl in *.
    + injection Hi as ->. subst n.
      now rewrite (getOrCreateClient_hit w st c Hn).
    + now apply (IH2 i w).
Qed.

Lemma run_calls_same_handle calls st i j wi wj hi hj :
  calls !! i = Some wi -> calls !! j = Some wj -> name wi = name wj ->
  (run_calls calls st).1 !! i = Some hi ->
  (run_calls calls st).1 !! j = Some hj ->
  hi = hj.
Proof.
  revert st i j. induction calls as [|w0 calls IH]; intros st i j Hi Hj Hn.
  - now rewrite lookup_nil in Hi.
  - rewrite run_calls_cons. simpl.
    pose proof (getOrCreateClient_lookup w0 st) as H0.
    destruct i as [|i], j as [|j]; simpl in *.
    + congruence.
    + injection Hi as ->. intros [= <-] Hhj.
      destruct (run_calls_stable calls _ _ _ H0) as [_ Hs].
      rewrite (Hs j wj Hj (eq_sym Hn)) in Hhj. congruence.
    + injection Hj as ->. intros Hhi [= <-].
      destruct (run_calls_stable calls _ _ _ H0) as [_ Hs].
      rewrite (Hs i wi Hi Hn) in Hhi. congruence.
    + now apply IH.
Qed.

Lemma run_calls_inv calls st base created :
  pool_inv base created st ->
  exists created', pool_inv base created' (run_calls calls st).2
    /\ list_to_set created'
       = (list_to_set (name <$> calls) ∪ list_to_set created : gset string).
Proof.
  revert st created. induction calls as [|w calls IH]; intros st created Hinv.
  - exists created. split; [exact Hinv|]. simpl.
    symmetry. apply union_empty_l_L.
  - rewrite run_calls_cons. simpl.
    destruct (getOrCreateClient_inv w st base created Hinv) as (c1 & Hinv1 & Hs1).
    destruct (IH _ c1 Hinv1) as (c2 & Hinv2 & Hs2).
    exists c2. split; [exact Hinv2|]. rewrite Hs2, Hs1. simpl.
    rewrite (assoc_L (∪)). f_equal. apply union_comm_L.
Qed.

End Pool.

(** C1: two calls of [getOrCreateClient] with workspace definitions of
    the same name return the same client handle, and the second call
    leaves the pool, the heap and the log unchanged, so it constructs
    nothing. Over the lifetime of a pool (any sequence of calls on a new
    manager), calls for the same name return the same handle, and one
    client is constructed per distinct name: the creation log has no
    repeated line, and the heap, the log and the pool have the size of
    the set of requested names. *)
Theorem getOrCreateClient_one_client_per_name :
  (forall (st : ManagerState) (w1 w2 : WorkspaceConfig),
     name w1 = name w2 ->
     let r1 := WorkspaceApiClientManager.getOrCreateClient w1 st in
     let r2 := WorkspaceApiClientManager.getOrCreateClient w2 r1.2 in
     r2.1 = r1.1 /\ r2.2 = r1.2)
  /\ (forall (config : MultiWorkspaceConfig) (calls : list WorkspaceConfig),
        let r := run_calls calls (WorkspaceApiClientManager.new config [] []) in
        (forall i j wi wj hi hj,
           calls !! i = Some wi -> calls !! j = Some wj ->
           name wi = name wj ->
           r.1 !! i = Some hi -> r.1 !! j = Some hj -> hi = hj)
        /\ NoDup (debugLog r.2)
        /\ dom (clients r.2) = list_to_set (name <$> calls)
        /\ length (heap r.2) = size (clients r.2)
        /\ length (debugLog r.2) = size (clients r.2)).
Proof.
  split.
  - intros st w1 w2 Hn r1 r2. subst r2.
    pose proof (getOrCreateClient_lookup w1 st) as H1. fold r1 in H1.
    rewrite Hn in H1.
    now rewrite (getOrCreateClient_hit w2 r1.2 r1.1 H1).
  - intros config calls r. split.
    + intros i j wi wj hi hj. apply run_calls_same_handle.
    + assert (Hinit : pool_inv 0 [] (WorkspaceApiClientManager.new config [] [])).
      { split; [apply NoDup_nil_2|]. split; [reflexivity|].
        split; [reflexivity|]. apply dom_empty_L. }
      destruct (run_calls_inv calls _ 0 [] Hinit)
        as (created & (Hnd & Hlog & Hheap & Hdom) & Hset).
      fold r in Hlog, Hheap, Hdom.
      assert (Hsize : size (clients r.2) = length created).
      { rewrite <- size_dom, Hdom. now apply size_list_to_set. }
      repeat split.
      * rewrite Hlog.
        now apply (@NoDup_fmap_2 _ _ _ created_message_inj).
      * rewrite Hdom, Hset. simpl. apply union_empty_r_L.
      * rewrite Hheap, Hsize. reflexivity.
      * rewrite Hlog, length_fmap, Hsize. reflexivity.
Qed.

(** ** Resolution *)

Section Resolution.
Context {L : LowerCase}.
Import WorkspaceApiClientManager.

Lemma join_truthy (sep : string) (l : list string) :
  (forall k, k ∈ l -> k <> "") ->
  truthy (join sep l) = match l with [] => false | _ => true end.
Proof.
  destruct l as [|k ks]; intros H; [reflexivity|].
  assert (Hk : k <> "") by (apply H; left).
  destruct k as [|a k]; [contradiction|].
  unfold join. destruct ks; reflexivity.
Qed.

Lemma getWorkspace_named (config : MultiWorkspaceConfig) (n : string) :
  n <> "" ->
  getWorkspace config (Some n) = map_get (toLowerCase n) (workspaces config).
Proof.
  intros Hn. unfold getWorkspace. simpl.
  apply truthy_true in Hn.
  rewrite truthy_toLowerCase, Hn. cbv iota.
  now rewrite truthy_toLowerCase, Hn.
Qed.

Lemma getWorkspace_default (config : MultiWorkspaceConfig) :
  getWorkspace config None
  = match defaultWorkspace config with
    | Some d => if truthy d then map_get d (workspaces config) else None
    | None => None
    end.
Proof. reflexivity. Qed.

Lemma registry_default_entry (env : Env) (d : string) :
  defaultWorkspace (registry_of env) = Some d ->
  d <> "" /\ exists ws, map_get d (workspaces (registry_of env)) = Some ws
                        /\ name ws = d.
Proof.
  intros Hd. pose proof (registry_default_key env d Hd) as Hkey.
  pose proof Hkey as Hin. apply map_has_true in Hin.
  apply registry_key_inserted, inserted_names_nonempty in Hin.
  split; [exact Hin|]. unfold map_has in Hkey.
  destruct (map_get d (workspaces (registry_of env))) as [ws|] eqn:E;
    [|discriminate].
  exists ws. split; [reflexivity|].
  apply map_get_Some in E. now apply registry_entry_name in E.
Qed.

End Resolution.

(** C6 (amended): for every manager whose registry was loaded from an
    environment and every supplied non-empty name whose lower-casing is
    not a key, resolution returns null instead of a context, no client is
    created, and the not-found message names the workspace as supplied
    and lists all available names, or [none] when the registry is empty.
    When no name is supplied and there is no default, resolution returns
    null and the message is the fixed "no workspace configured" text.
    Every function involved is total. *)
Theorem resolve_unknown_workspace {L : LowerCase} (env : Env) (m : ManagerState) :
  workspaceConfig m = registry_of env ->
  (forall n, n <> "" ->
     map_has (toLowerCase n) (workspaces (registry_of env)) = false ->
     resolveWorkspaceContext m (Some n) = None
     /\ WorkspaceApiClientManager.getClient (Some n) m = (None, m)
     /\ WorkspaceApiClientManager.getWorkspaceNotFoundError m (Some n)
        = "Workspace '" +:+ n +:+ "' not found. Available workspaces: "
            +:+ match WorkspaceApiClientManager.getAvailableWorkspaces m with
                | [] => "none"
                | names => join ", " names
                end)
  /\ (defaultWorkspace (registry_of env) = None ->
      resolveWorkspaceContext m None = None
      /\ WorkspaceApiClientManager.getClient None m = (None, m)
      /\ WorkspaceApiClientManager.getWorkspaceNotFoundError m None
         = no_workspace_configured).
Proof.
  intros Hcfg. split.
  - intros n Hn Hhas.
    assert (Hget : getWorkspace (workspaceConfig m) (Some n) = None).
    { rewrite Hcfg, getWorkspace_named by exact Hn.
      unfold map_has in Hhas.
      now destruct (map_get (toLowerCase n) (workspaces (registry_of env))). }
    unfold resolveWorkspaceContext, WorkspaceApiClientManager.getInstanceContext,
      WorkspaceApiClientManager.getClient.
    rewrite Hget. split; [reflexivity|]. split; [reflexivity|].
    unfold WorkspaceApiClientManager.getWorkspaceNotFoundError,
      WorkspaceApiClientManager.getAvailableWorkspaces, getAvailableWorkspaces.
    apply truthy_true in Hn. rewrite Hn, Hcfg. do 3 f_equal.
    rewrite join_truthy.
    + now destruct (map_keys (workspaces (registry_of env))).
    + intros k Hk. apply registry_key_inserted in Hk.
      now apply inserted_names_nonempty in Hk.
  - intros Hd.
    unfold resolveWorkspaceContext, WorkspaceApiClientManager.getInstanceContext,
      WorkspaceApiClientManager.getClient.
    rewrite getWorkspace_default, Hcfg, Hd. auto.
Qed.

(** C7: for every manager whose registry was loaded from an environment,
    a supplied name whose lower-casing is a key resolves to the context
    of that workspace: its url, its token and the identifier
    [workspace-] followed by the lower-cased name; with no name supplied
    and a default, resolution yields the context of the default
    workspace. Two names that agree after lower-casing resolve alike. *)
Theorem resolve_known_workspace {L : LowerCase} (env : Env) (m : ManagerState) :
  workspaceConfig m = registry_of env ->
  (forall n, map_has (toLowerCase n) (workspaces (registry_of env)) = true ->
     exists ws,
       map_get (toLowerCase n) (workspaces (registry_of env)) = Some ws
       /\ name ws = toLowerCase n
       /\ resolveWorkspaceContext m (Some n)
          = Some {| n8nApiUrl := url ws; n8nApiKey := token ws;
                    instanceId := "workspace-" +:+ toLowerCase n |})
  /\ (forall d, defaultWorkspace (registry_of env) = Some d ->
        exists ws,
          map_get d (workspaces (registry_of env)) = Some ws
          /\ is_lower d
          /\ resolveWorkspaceContext m None
             = Some {| n8nApiUrl := url ws; n8nApiKey := token ws;
                       instanceId := "workspace-" +:+ d |})
  /\ (forall n n', toLowerCase n = toLowerCase n' ->
        resolveWorkspaceContext m (Some n) = resolveWorkspaceContext m (Some n')).
Proof.
  intros Hcfg. split; [|split].
  - intros n Hhas.
    assert (Hn : n <> "").
    { apply registry_key_truthy in Hhas. rewrite truthy_toLowerCase in Hhas.
      now apply truthy_true. }
    unfold map_has in Hhas.
    destruct (map_get (toLowerCase n) (workspaces (registry_of env)))
      as [ws|] eqn:E; [|discriminate].
    assert (Hname : name ws = toLowerCase n).
    { apply map_get_Some in E. now apply registry_entry_name in E. }
    exists ws. split; [reflexivity|]. split; [exact Hname|].
    unfold resolveWorkspaceContext, WorkspaceApiClientManager.getInstanceContext.
    rewrite Hcfg, getWorkspace_named, E by exact Hn.
    unfold workspaceToInstanceContext. now rewrite Hname.
  - intros d Hd.
    destruct (registry_default_entry env d Hd) as (Hne & ws & E & Hname).
    exists ws. split; [exact E|]. split.
    + apply (inserted_names_lower env). apply registry_key_inserted.
      apply map_has_true. now apply registry_default_key.
    + unfold resolveWorkspaceContext, WorkspaceApiClientManager.getInstanceContext.
      apply truthy_true in Hne.
      rewrite Hcfg, getWorkspace_default, Hd, Hne, E.
      unfold workspaceToInstanceContext. now rewrite Hname.
  - intros n n' Heq.
    unfold resolveWorkspaceContext, WorkspaceApiClientManager.getInstanceContext,
      getWorkspace. simpl. now rewrite Heq.
Qed.

(** C8: multi-workspace mode holds exactly when the registry has more
    than one entry; the workspace parameter schema is produced exactly in
    that mode, with the available names, in order, as its enum, and is
    null when the registry has at most one entry. *)
Theorem multi_workspace_schema (m : ManagerState) :
  isMultiWorkspaceMode (workspaceConfig m)
  = bool_decide (1 < map_size (workspaces (workspaceConfig m)))
  /\ shouldShowWorkspaceParam m = isMultiWorkspaceMode (workspaceConfig m)
  /\ match getWorkspaceParamSchema m with
     | Some schema =>
         isMultiWorkspaceMode (workspaceConfig m) = true
         /\ 1 < map_size (workspaces (workspaceConfig m))
         /\ type schema = "string"
         /\ enum schema = getAvailableWorkspaces (workspaceConfig m)
     | None =>
         isMultiWorkspaceMode (workspaceConfig m) = false
         /\ map_size (workspaces (workspaceConfig m)) <= 1
     end.
Proof.
  assert (Hmode : isMultiWorkspaceMode (workspaceConfig m)
                  = bool_decide (1 < map_size (workspaces (workspaceConfig m)))).
  { unfold isMultiWorkspaceMode.
    destruct (Nat.ltb_spec 1 (map_size (workspaces (workspaceConfig m))));
      [now rewrite bool_decide_eq_true_2|rewrite bool_decide_eq_false_2; [reflexivity|lia]]. }
  split; [exact Hmode|]. split; [reflexivity|].
  unfold getWorkspaceParamSchema, WorkspaceApiClientManager.isMultiWorkspace.
  rewrite Hmode. case_bool_decide as Hsize; simpl.
  - repeat split; assumption.
  - split; [reflexivity|lia].
Qed.

(** C9: [getWorkspace] called with the empty string behaves as with no
    name: it returns what the call without a name returns, which is
    null when there is no default and the entry of the default otherwise;
    an entry keyed by the empty string is never looked up. For a registry
    loaded from an environment with a default, the result is the
    default's definition. *)
Theorem getWorkspace_empty_name {L : LowerCase} (config : MultiWorkspaceConfig) (env : Env) :
  getWorkspace config (Some "") = getWorkspace config None
  /\ match defaultWorkspace config with
     | Some d =>
         getWorkspace config (Some "")
         = if truthy d then map_get d (workspaces config) else None
     | None => getWorkspace config (Some "") = None
     end
  /\ match defaultWorkspace (registry_of env) with
     | Some d =>
         exists ws, getWorkspace (registry_of env) (Some "") = Some ws
                    /\ map_get d (workspaces (registry_of env)) = Some ws
                    /\ name ws = d
     | None => getWorkspace (registry_of env) (Some "") = None
     end.
Proof.
  assert (Heq : forall c, getWorkspace c (Some "") = getWorkspace c None).
  { intros c. unfold getWorkspace. simpl.
    now rewrite toLowerCase_ascii by reflexivity. }
  split; [apply Heq|]. split.
  - rewrite Heq, getWorkspace_default. now destruct (defaultWorkspace config).
  - rewrite Heq, getWorkspace_default.
    destruct (defaultWorkspace (registry_of env)) as [d|] eqn:Hd; [|reflexivity].
    destruct (registry_default_entry env d Hd) as (Hne & ws & E & Hname).
    exists ws. apply truthy_true in Hne. now rewrite Hne.
Qed.

(** ** Further properties of discovery *)

Section Discovery.
Context {L : LowerCase}.
Variable env : Env.

Lemma valid_pair_suffix NAME v :
  valid_pair env NAME v -> NAME ∈ valid_suffixes env.
Proof.
  intros (Hin & HN & Hv & Ht). unfold valid_suffixes.
  apply valid_suffixes_in_spec. exists v. auto.
Qed.

Lemma valid_suffixes_nil :
  valid_suffixes env = [] <-> ~ exists NAME v, valid_pair env NAME v.
Proof.
  split.
  - intros E (N & v & Hp). apply valid_pair_suffix in Hp.
    rewrite E in Hp. now apply elem_of_nil in Hp.
  - intros Hno. destruct (valid_suffixes env) as [|N l] eqn:E; [reflexivity|].
    exfalso. apply Hno.
    assert (HN : N ∈ valid_suffixes env) by (rewrite E; left).
    unfold valid_suffixes in HN. apply valid_suffixes_in_spec in HN as (v & ?).
    exists N, v. exact H.
Qed.

Lemma inserted_names_nil :
  inserted_names env = []
  <-> valid_suffixes env = [] /\ fallback_available env = false.
Proof.
  unfold inserted_names. destruct (valid_suffixes env) as [|N l]; simpl.
  - destruct (fallback_available env); split; try discriminate; auto.
    intros [_ ?]; discriminate.
  - split; [discriminate|]. intros [? _]; discriminate.
Qed.

Lemma registry_nil_inserted :
  workspaces (registry_of env) = [] <-> inserted_names env = [].
Proof.
  pose proof (registry_keys env) as K. split; intros H.
  - rewrite H in K. simpl in K.
    destruct (inserted_names env) as [|n ns]; [reflexivity|exfalso].
    assert (Hn : n ∈ fold_left add_key (n :: ns) [])
      by (apply fold_add_elem; right; left).
    rewrite <- K in Hn. now apply elem_of_nil in Hn.
  - rewrite H in K. simpl in K. now destruct (workspaces (registry_of env)).
Qed.

End Discovery.

(** X1: the entries of a loaded registry. Keys are pairwise different,
    non-empty and in lower case; the [name] of an entry is its key; url
    and token of an entry are never empty. *)
Theorem registry_entry_invariant {L : LowerCase} (env : Env) :
  NoDup (map_keys (workspaces (registry_of env)))
  /\ forall k ws, In (k, ws) (workspaces (registry_of env)) ->
       name ws = k /\ k <> "" /\ is_lower k /\ url ws <> "" /\ token ws <> "".
Proof.
  split; [apply registry_keys_NoDup|]. intros k ws Hin.
  assert (Hk : k ∈ inserted_names env).
  { apply registry_key_inserted. apply list_elem_of_In.
    apply (in_map fst) in Hin. exact Hin. }
  split; [now apply (registry_entry_name env)|].
  split; [now apply (inserted_names_nonempty env)|].
  split; [now apply (inserted_names_lower env)|].
  apply registry_entries in Hin as [(N & v & t & Hp & Ht & [= -> ->])|Hin].
  - destruct Hp as (_ & _ & Hv & t' & Ht' & Hne). simpl.
    split; [exact Hv|congruence].
  - destruct Hin as (_ & u & k' & _ & Hu & _ & Hk' & [= -> ->]). simpl. auto.
Qed.

(** X2: the registry is empty exactly when the environment has no valid
    URL/credential pair and the two fallback variables are not both set;
    an empty registry has no default and resolves no name. *)
Theorem registry_empty_iff {L : LowerCase} (env : Env) :
  (workspaces (registry_of env) = []
   <-> (~ exists NAME v, valid_pair env NAME v)
       /\ fallback_available env = false)
  /\ (workspaces (registry_of env) = [] ->
      defaultWorkspace (registry_of env) = None
      /\ forall n, getWorkspace (registry_of env) n = None).
Proof.
  split.
  - now rewrite registry_nil_inserted, inserted_names_nil, valid_suffixes_nil.
  - intros Hnil.
    assert (Hd : defaultWorkspace (registry_of env) = None).
    { destruct (defaultWorkspace (registry_of env)) as [d|] eqn:E; [|reflexivity].
      apply registry_default_key in E. rewrite Hnil in E. discriminate. }
    split; [exact Hd|]. intros n. unfold getWorkspace. rewrite Hd, Hnil.
    destruct (toLowerCase <$> n) as [s|]; [|reflexivity].
    destruct (truthy s) eqn:T; [|reflexivity]. now rewrite T.
Qed.

(** X3: when the environment has a valid URL/credential pair, the
    fallback variables are not used, whether set or not: every entry
    comes from a variable [N8N_URL_<NAME>] of the environment with its
    value as url and the value of [N8N_TOKEN_<NAME>] as token, under the
    lower-cased <NAME>. *)
Theorem scanned_registry_provenance {L : LowerCase} (env : Env) (NAME0 v0 : string) :
  valid_pair env NAME0 v0 ->
  forall k ws, In (k, ws) (workspaces (registry_of env)) ->
    exists NAME,
      k = toLowerCase NAME
      /\ urlEnvVar ws = urlPrefix +:+ NAME
      /\ tokenEnvVar ws = tokenPrefix +:+ NAME
      /\ In (urlEnvVar ws, url ws) env
      /\ env_get env (tokenEnvVar ws) = Some (token ws)
      /\ urlEnvVar ws <> "N8N_API_URL".
Proof.
  intros Hp0 k ws Hin.
  apply registry_entries in Hin as [(N & v & t & Hp & Ht & [= -> ->])|Hin].
  - exists N. simpl. destruct Hp as (HinN & _).
    repeat split; try assumption; try reflexivity.
    cbv [urlPrefix String.append]. discriminate.
  - destruct Hin as (Hnil & _). apply valid_pair_suffix in Hp0.
    rewrite Hnil in Hp0. now apply elem_of_nil in Hp0.
Qed.

Section Collisions.
Context {L : LowerCase}.
Variable env : Env.

Lemma map_get_set_ne {V : Type} (m : JsMap V) (k k' : string) (v : V) :
  k' <> k -> map_get k (map_set k' v m) = map_get k m.
Proof.
  intros Hne. induction m as [|[k0 v0] m IH]; simpl.
  - destruct (String.eqb_spec k' k); [contradiction|reflexivity].
  - destruct (String.eqb_spec k0 k') as [->|Hne0]; simpl.
    + destruct (String.eqb_spec k' k); [contradiction|reflexivity].
    + destruct (String.eqb_spec k0 k); [reflexivity|exact IH].
Qed.

Lemma scan_get_preserved (l : Env) (st : list (string * WorkspaceConfig) * list string)
    (k : string) :
  (forall N, N ∈ valid_suffixes_in env l -> toLowerCase N <> k) ->
  map_get k (fold_left (scan_step env) l st).1 = map_get k st.1.
Proof.
  revert st. induction l as [|[kv v] l IH]; intros [ws log] Hl; [reflexivity|].
  cbn [fold_left]. unfold valid_suffixes_in in Hl. cbn [omap list_omap] in Hl.
  destruct (scan_step_case env ws log kv v) as [| | |N t Hk HN Hv Ht Htt];
    try (rewrite IH; [reflexivity|exact Hl]).
  rewrite IH.
  - simpl. apply map_get_set_ne. apply Hl. left.
  - intros N' HN'. apply Hl. now right.
Qed.


End Collisions.

(** X4: duplicates are resolved by the last one in enumeration order.
    When the valid pair [N8N_URL_<NAME>] is followed by no valid pair
    whose suffix has the same lower-casing, the entry under the
    lower-cased name carries the url and token of that pair, whatever
    came before it. *)
Theorem last_valid_pair_wins {L : LowerCase} (env l1 l2 : Env) (NAME v t : string) :
  env = l1 ++ (urlPrefix +:+ NAME, v) :: l2 ->
  NAME <> "" -> v <> "" ->
  env_get env (tokenPrefix +:+ NAME) = Some t -> t <> "" ->
  (forall N, N ∈ valid_suffixes_in env l2 -> toLowerCase N <> toLowerCase NAME) ->
  map_get (toLowerCase NAME) (workspaces (registry_of env))
  = Some {| name := toLowerCase NAME; url := v; token := t;
            urlEnvVar := urlPrefix +:+ NAME;
            tokenEnvVar := tokenPrefix +:+ NAME |}.
Proof.
  intros Henv HN Hv Ht Htt Hlast.
  assert (Hscan : map_get (toLowerCase NAME) (scan env).1
                  = Some {| name := toLowerCase NAME; url := v; token := t;
                            urlEnvVar := urlPrefix +:+ NAME;
                            tokenEnvVar := tokenPrefix +:+ NAME |}).
  { unfold scan. rewrite Henv at 2. rewrite fold_left_app. cbn [fold_left].
    rewrite scan_get_preserved by exact Hlast.
    destruct (fold_left (scan_step env) l1 ([], [])) as [ws log].
    destruct (scan_step_case env ws log (urlPrefix +:+ NAME) v)
      as [Hc|N Hk _ Ht'|Hk _ _|N t' Hk _ _ Ht' _].
    - rewrite startsWith_app in Hc. apply truthy_true in Hv.
      rewrite Hv in Hc. discriminate.
    - apply append_inj_l in Hk as <-. rewrite Ht in Ht'. simpl in Ht'.
      apply truthy_false in Ht'. contradiction.
    - change urlPrefix with (urlPrefix +:+ "") in Hk at 2.
      apply append_inj_l in Hk. contradiction.
    - apply append_inj_l in Hk as <-. rewrite Ht in Ht'. injection Ht' as <-.
      simpl. apply map_get_set_eq. }
  rewrite registry_workspaces, fallback_nonempty; [exact Hscan|].
  intros Hnil. rewrite Hnil in Hscan. discriminate.
Qed.


Section Diagnostics.
Context {L : LowerCase}.
Variable env : Env.

Lemma untokened_suffix_spec (k v N : string) :
  untokened_suffix_of env (k, v) = Some N
  <-> k = urlPrefix +:+ N /\ v <> ""
      /\ truthy_opt (env_get env (tokenPrefix +:+ N)) = false.
Proof.
  unfold untokened_suffix_of. cbn [fst snd]. split.
  - destruct (startsWith k urlPrefix) eqn:Hp; [|discriminate].
    destruct (truthy v) eqn:Hv; [|discriminate].
    destruct (truthy_opt (env_get env
                (tokenPrefix +:+ substring (String.length urlPrefix) k))) eqn:Ht;
      [discriminate|].
    simpl. intros [= <-]. apply startsWith_split in Hp.
    split; [exact Hp|]. split; [now apply truthy_true|exact Ht].
  - intros (-> & Hv & Ht). rewrite startsWith_app, substring_app, Ht.
    apply truthy_true in Hv. now rewrite Hv.
Qed.

Lemma scan_step_log ws log (e : string * string) :
  (scan_step env (ws, log) e).2
  = log ++ match untokened_suffix_of env e with
           | Some N => [missing_token_warning (toLowerCase N) (tokenPrefix +:+ N)]
           | None => []
           end.
Proof.
  destruct e as [k v].
  destruct (untokened_suffix_of env (k, v)) as [N|] eqn:E.
  - apply untokened_suffix_spec in E as (-> & Hv & Ht).
    destruct (scan_step_case env ws log (urlPrefix +:+ N) v)
      as [Hc|N' Hk _ _|Hk _ Ht'|N' t Hk _ _ Ht' Htt]; simpl.
    + rewrite startsWith_app in Hc. apply truthy_true in Hv.
      rewrite Hv in Hc. discriminate.
    + now apply append_inj_l in Hk as <-.
    + change urlPrefix with (urlPrefix +:+ "") in Hk at 2.
      apply append_inj_l in Hk as ->.
      change (tokenPrefix +:+ "") with tokenPrefix in Ht. congruence.
    + apply append_inj_l in Hk as <-. rewrite Ht' in Ht. simpl in Ht.
      apply truthy_true in Htt. congruence.
  - destruct (scan_step_case env ws log k v)
      as [Hc|N Hk Hv Ht| |]; simpl; try now rewrite app_nil_r.
    assert (E' : untokened_suffix_of env (k, v) = Some N)
      by (apply untokened_suffix_spec; auto).
    congruence.
Qed.

Lemma scan_fold_log (l : Env) (st : list (string * WorkspaceConfig) * list string) :
  (fold_left (scan_step env) l st).2
  = st.2 ++ ((fun N => missing_token_warning (toLowerCase N) (tokenPrefix +:+ N))
               <$> omap (untokened_suffix_of env) l).
Proof.
  revert st. induction l as [|e l IH]; intros [ws log].
  - simpl. now rewrite app_nil_r.
  - cbn [fold_left omap list_omap]. rewrite IH.
    destruct (scan_step env (ws, log) e) as [ws' log'] eqn:Es.
    pose proof (scan_step_log ws log e) as Hl. rewrite Es in Hl.
    cbn [snd] in *. rewrite Hl.
    destruct (untokened_suffix_of env e); simpl.
    + now rewrite <- app_assoc.
    + now rewrite app_nil_r.
Qed.

End Diagnostics.

(** X6: the diagnostics of a load. The warnings are, in enumeration
    order, one missing-token warning for each environment entry
    [N8N_URL_<NAME>] with a non-empty value whose [N8N_TOKEN_<NAME>] is
    missing or empty, with the lower-cased name and the expected
    credential variable, and nothing else; a load logs no warning exactly
    when every such URL variable has its credential. *)
Theorem load_warnings {L : LowerCase} (env : Env) :
  warnings_of env
  = (fun N => missing_token_warning (toLowerCase N) (tokenPrefix +:+ N))
      <$> untokened_suffixes env
  /\ (forall N, N ∈ untokened_suffixes env
        <-> exists v, In (urlPrefix +:+ N, v) env /\ v <> ""
              /\ truthy_opt (env_get env (tokenPrefix +:+ N)) = false)
  /\ (warnings_of env = []
      <-> forall NAME v, In (urlPrefix +:+ NAME, v) env -> v <> "" ->
            truthy_opt (env_get env (tokenPrefix +:+ NAME)) = true).
Proof.
  assert (Hlist : warnings_of env
    = (fun N => missing_token_warning (toLowerCase N) (tokenPrefix +:+ N))
        <$> untokened_suffixes env).
  { rewrite warnings_scan. unfold scan. now rewrite scan_fold_log. }
  assert (Hmem : forall N, N ∈ untokened_suffixes env
        <-> exists v, In (urlPrefix +:+ N, v) env /\ v <> ""
              /\ truthy_opt (env_get env (tokenPrefix +:+ N)) = false).
  { intros N. unfold untokened_suffixes. rewrite list_elem_of_omap. split.
    - intros ([k v] & Hin & E). apply untokened_suffix_spec in E as (-> & ? & ?).
      exists v. split; [now apply list_elem_of_In|auto].
    - intros (v & Hin & Hv & Ht). exists (urlPrefix +:+ N, v).
      split; [now apply list_elem_of_In|].
      apply untokened_suffix_spec. auto. }
  split; [exact Hlist|]. split; [exact Hmem|]. rewrite Hlist. split.
  - intros Hnil N v Hin Hv.
    destruct (truthy_opt (env_get env (tokenPrefix +:+ N))) eqn:Ht; [reflexivity|].
    exfalso. assert (HN : N ∈ untokened_suffixes env) by (apply Hmem; eauto).
    apply fmap_nil_inv in Hnil. rewrite Hnil in HN. now apply elem_of_nil in HN.
  - intros Hall. destruct (untokened_suffixes env) as [|N l] eqn:E; [reflexivity|].
    exfalso. assert (HN : N ∈ N :: l) by left.
    apply Hmem in HN as (v & Hin & Hv & Ht).
    rewrite (Hall N v Hin Hv) in Ht. discriminate.
Qed.

Section Modes.
Context {L : LowerCase}.
Variable env : Env.

Lemma registry_key_pair k :
  k ∈ map_keys (workspaces (registry_of env)) ->
  (exists NAME v, valid_pair env NAME v) ->
  exists NAME v, valid_pair env NAME v /\ k = toLowerCase NAME.
Proof.
  intros Hk (N0 & v0 & Hp0).
  apply registry_key_inserted, inserted_names_spec in Hk as [Hk|(_ & Hnil & _)];
    [exact Hk|].
  apply valid_pair_suffix in Hp0. rewrite Hnil in Hp0.
  now apply elem_of_nil in Hp0.
Qed.

Lemma two_keys (ks : list string) :
  NoDup ks -> (1 < length ks <-> exists x y, x ∈ ks /\ y ∈ ks /\ x <> y).
Proof.
  intros Hnd. split.
  - destruct ks as [|x [|y ks]]; simpl; try lia. intros _.
    exists x, y. split; [left|]. split; [right; left|].
    apply NoDup_cons in Hnd as [Hx _]. intros ->. apply Hx. left.
  - intros (x & y & Hx & Hy & Hne).
    destruct ks as [|a [|b ks]]; simpl; try lia.
    + now apply elem_of_nil in Hx.
    + apply list_elem_of_singleton in Hx, Hy. congruence.
Qed.

Lemma registry_singleton_default k ws :
  workspaces (registry_of env) = [(k, ws)] ->
  defaultWorkspace (registry_of env) = Some k.
Proof.
  intros Hone.
  destruct (defaultWorkspace (registry_of env)) as [d|] eqn:Hd.
  - apply registry_default_key, map_has_true in Hd. rewrite Hone in Hd.
    simpl in Hd. apply list_elem_of_singleton in Hd. now subst.
  - rewrite registry_default in Hd. unfold determine_default in Hd.
    rewrite Hone in Hd. unfold first_key in Hd. simpl in Hd.
    destruct (toLowerCase <$> env_get env "N8N_DEFAULT_WORKSPACE") as [s|];
      [|discriminate].
    destruct (truthy s && map_has s [(k, ws)]); discriminate.
Qed.

Lemma registry_nonempty_default :
  workspaces (registry_of env) <> [] ->
  exists d, defaultWorkspace (registry_of env) = Some d /\ d <> "".
Proof.
  intros Hne.
  destruct (defaultWorkspace (registry_of env)) as [d|] eqn:Hd.
  - exists d. split; [reflexivity|].
    now destruct (registry_default_entry env d Hd).
  - exfalso. rewrite registry_default in Hd. unfold determine_default in Hd.
    unfold first_key, map_size in Hd.
    destruct (workspaces (registry_of env)) as [|[k ws] m]; [contradiction|].
    simpl in Hd.
    destruct (toLowerCase <$> env_get env "N8N_DEFAULT_WORKSPACE") as [s|];
      [|discriminate].
    destruct (truthy s && map_has s ((k, ws) :: m)); discriminate.
Qed.

End Modes.

(** X7: a loaded registry is in multi-workspace mode exactly when the
    environment has two valid URL/credential pairs whose names differ
    after lower-casing. The fallback alone, or pairs that differ only in
    case, never give multi-workspace mode. *)
Theorem multi_workspace_mode_iff {L : LowerCase} (env : Env) :
  isMultiWorkspaceMode (registry_of env) = true
  <-> exists N1 v1 N2 v2,
        valid_pair env N1 v1 /\ valid_pair env N2 v2
        /\ toLowerCase N1 <> toLowerCase N2.
Proof.
  unfold isMultiWorkspaceMode, map_size.
  rewrite Nat.ltb_lt, <- (length_map fst). fold (map_keys (workspaces (registry_of env))).
  rewrite (two_keys _ (registry_keys_NoDup env)). split.
  - intros (x & y & Hx & Hy & Hne).
    assert (Hsome : exists NAME v, valid_pair env NAME v).
    { apply registry_key_inserted, inserted_names_spec in Hx as [Hx|(-> & Hnil & _)].
      - destruct Hx as (N & v & Hp & _). eauto.
      - apply registry_key_inserted, inserted_names_spec in Hy
          as [Hy|(-> & _)]; [|contradiction].
        destruct Hy as (N & v & Hp & _). eauto. }
    destruct (registry_key_pair env x Hx Hsome) as (N1 & v1 & Hp1 & ->).
    destruct (registry_key_pair env y Hy Hsome) as (N2 & v2 & Hp2 & ->).
    exists N1, v1, N2, v2. auto.
  - intros (N1 & v1 & N2 & v2 & Hp1 & Hp2 & Hne).
    exists (toLowerCase N1), (toLowerCase N2).
    split; [|split; [|exact Hne]];
      apply registry_key_inserted, inserted_names_spec; left; eauto.
Qed.

(** X8: single-workspace mode. When the loaded registry has exactly one
    entry, that entry is the default whatever [N8N_DEFAULT_WORKSPACE]
    says, resolution without a name yields its context, and no workspace
    parameter is offered. *)
Theorem single_workspace_mode {L : LowerCase} (env : Env) (m : ManagerState) (k : string)
    (ws : WorkspaceConfig) :
  workspaceConfig m = registry_of env ->
  workspaces (registry_of env) = [(k, ws)] ->
  defaultWorkspace (registry_of env) = Some k
  /\ resolveWorkspaceContext m None = Some (workspaceToInstanceContext ws)
  /\ instanceId (workspaceToInstanceContext ws) = "workspace-" +:+ k
  /\ shouldShowWorkspaceParam m = false
  /\ getWorkspaceParamSchema m = None.
Proof.
  intros Hcfg Hone.
  pose proof (registry_singleton_default env k ws Hone) as Hd.
  destruct (registry_default_entry env k Hd) as (Hne & ws' & Hget & Hname).
  rewrite Hone in Hget. simpl in Hget. rewrite String.eqb_refl in Hget.
  injection Hget as <-.
  split; [exact Hd|]. split; [|split; [|split]].
  - unfold resolveWorkspaceContext, WorkspaceApiClientManager.getInstanceContext.
    apply truthy_true in Hne.
    rewrite Hcfg, getWorkspace_default, Hd, Hne, Hone. simpl.
    now rewrite String.eqb_refl.
  - simpl. now rewrite Hname.
  - unfold shouldShowWorkspaceParam, WorkspaceApiClientManager.isMultiWorkspace,
      isMultiWorkspaceMode. now rewrite Hcfg, Hone.
  - unfold getWorkspaceParamSchema, WorkspaceApiClientManager.isMultiWorkspace,
      isMultiWorkspaceMode. now rewrite Hcfg, Hone.
Qed.

(** X9: the tenant identifier separates workspaces. Contexts derived from
    workspace definitions have the same [instanceId] only if the
    definitions have the same name, and two non-empty names that both
    resolve in a loaded registry get the same [instanceId] exactly when
    they agree after lower-casing. *)
Theorem instanceId_separates_workspaces {L : LowerCase} (env : Env) (m : ManagerState) :
  workspaceConfig m = registry_of env ->
  (forall w1 w2 : WorkspaceConfig,
     instanceId (workspaceToInstanceContext w1)
     = instanceId (workspaceToInstanceContext w2) ->
     name w1 = name w2)
  /\ (forall n1 n2 c1 c2, n1 <> "" -> n2 <> "" ->
        resolveWorkspaceContext m (Some n1) = Some c1 ->
        resolveWorkspaceContext m (Some n2) = Some c2 ->
        (instanceId c1 = instanceId c2 <-> toLowerCase n1 = toLowerCase n2)).
Proof.
  intros Hcfg.
  assert (Hinj : forall w1 w2 : WorkspaceConfig,
     instanceId (workspaceToInstanceContext w1)
     = instanceId (workspaceToInstanceContext w2) -> name w1 = name w2).
  { intros w1 w2 H. simpl in H. now apply append_inj_l in H. }
  split; [exact Hinj|].
  assert (Hres : forall n c, n <> "" ->
            resolveWorkspaceContext m (Some n) = Some c ->
            exists ws, map_get (toLowerCase n) (workspaces (registry_of env)) = Some ws
                       /\ c = workspaceToInstanceContext ws
                       /\ name ws = toLowerCase n).
  { intros n c Hn. unfold resolveWorkspaceContext,
      WorkspaceApiClientManager.getInstanceContext.
    rewrite Hcfg, getWorkspace_named by exact Hn.
    destruct (map_get (toLowerCase n) (workspaces (registry_of env)))
      as [ws|] eqn:E; [|discriminate].
    intros [= <-]. exists ws. split; [reflexivity|]. split; [reflexivity|].
    apply map_get_Some in E. now apply registry_entry_name in E. }
  intros n1 n2 c1 c2 Hn1 Hn2 H1 H2.
  destruct (Hres n1 c1 Hn1 H1) as (w1 & E1 & -> & Hname1).
  destruct (Hres n2 c2 Hn2 H2) as (w2 & E2 & -> & Hname2).
  split.
  - intros H. apply Hinj in H. congruence.
  - intros Heq. rewrite Heq in E1. congruence.
Qed.

(** ** Descriptions *)

Section Descriptions.
Context {L : LowerCase}.

Lemma multi_message_distinct (rest : string) :
  "Workspace config: Multi-workspace mode" +:+ rest
  <> "Workspace config: No workspaces configured (missing N8N_URL_* + N8N_TOKEN_* or N8N_API_URL + N8N_API_KEY env vars)"
  /\ "Workspace config: Multi-workspace mode" +:+ rest
     <> "Workspace config: Single workspace mode (using N8N_API_URL + N8N_API_KEY)".
Proof.
  split; intros H; cbv [String.append] in H; discriminate.
Qed.

Lemma describe_multi (config : MultiWorkspaceConfig) :
  workspaces config <> [] ->
  map_keys (workspaces config) <> ["default"] ->
  describeWorkspaceConfig config
  = "Workspace config: Multi-workspace mode" +:+ newline
      +:+ "  Available: " +:+ join ", " (map_keys (workspaces config)) +:+ newline
      +:+ "  Default: "
      +:+ (if truthy_opt (defaultWorkspace config)
           then default "" (defaultWorkspace config) else "none").
Proof.
  intros Hne Hnd. unfold describeWorkspaceConfig.
  destruct (workspaces config) as [|[k w] m] eqn:E; [contradiction|].
  cbn [map_keys map fst length Nat.eqb head]. destruct m as [|e m].
  - cbn [map length Nat.eqb andb].
    destruct (String.eqb_spec k "default") as [->|]; [now contradiction Hnd|].
    reflexivity.
  - reflexivity.
Qed.

End Descriptions.

(** X10: what [describeWorkspaceConfig] reports. The "no workspaces"
    line is produced exactly for an empty registry, and the "single
    workspace mode (using N8N_API_URL + N8N_API_KEY)" line exactly when
    the only key is [default], wherever that entry came from. Every
    other loaded registry, also one with a single workspace of another
    name, is described as multi-workspace mode with its names in order
    and its default, which is never reported as [none]. *)
Theorem describe_classification {L : LowerCase} (config : MultiWorkspaceConfig) (env : Env) :
  (describeWorkspaceConfig config
   = "Workspace config: No workspaces configured (missing N8N_URL_* + N8N_TOKEN_* or N8N_API_URL + N8N_API_KEY env vars)"
   <-> workspaces config = [])
  /\ (describeWorkspaceConfig config
      = "Workspace config: Single workspace mode (using N8N_API_URL + N8N_API_KEY)"
      <-> map_keys (workspaces config) = ["default"])
  /\ (workspaces (registry_of env) <> [] ->
      map_keys (workspaces (registry_of env)) <> ["default"] ->
      exists d,
        defaultWorkspace (registry_of env) = Some d
        /\ describeWorkspaceConfig (registry_of env)
           = "Workspace config: Multi-workspace mode" +:+ newline
               +:+ "  Available: "
               +:+ join ", " (getAvailableWorkspaces (registry_of env))
               +:+ newline +:+ "  Default: " +:+ d).
Proof.
  split; [|split].
  - split.
    + intros H. destruct (workspaces config) as [|e m] eqn:E; [reflexivity|].
      exfalso.
      assert (Hne : workspaces config <> []) by (rewrite E; discriminate).
      destruct (decide (map_keys (workspaces config) = ["default"])) as [Hd|Hd].
      * unfold describeWorkspaceConfig in H. rewrite Hd in H. discriminate.
      * rewrite describe_multi in H by assumption.
        now apply multi_message_distinct in H.
    + intros E. unfold describeWorkspaceConfig. now rewrite E.
  - split.
    + intros H.
      destruct (decide (map_keys (workspaces config) = ["default"])) as [Hd|Hd];
        [exact Hd|exfalso].
      assert (Hne : workspaces config <> []).
      { intros E. unfold describeWorkspaceConfig in H. rewrite E in H.
        discriminate. }
      rewrite describe_multi in H by assumption.
      now apply multi_message_distinct in H.
    + intros E. unfold describeWorkspaceConfig. now rewrite E.
  - intros Hne Hnd.
    destruct (registry_nonempty_default env Hne) as (d & Hd & Hdne).
    exists d. split; [exact Hd|].
    rewrite describe_multi by assumption.
    apply truthy_true in Hdne. rewrite Hd. simpl. now rewrite Hdne.
Qed.

(** X11: in multi-workspace mode over a loaded registry the workspace
    parameter schema always documents a default: the description lists
    the available names and ends with the default workspace. *)
Theorem schema_documents_default {L : LowerCase} (env : Env) (m : ManagerState) :
  workspaceConfig m = registry_of env ->
  isMultiWorkspaceMode (registry_of env) = true ->
  exists d,
    defaultWorkspace (registry_of env) = Some d
    /\ map_has d (workspaces (registry_of env)) = true
    /\ getWorkspaceParamSchema m
       = Some {| type := "string";
                 description :=
                   "Workspace to use. Available: "
                     +:+ join ", " (getAvailableWorkspaces (registry_of env))
                     +:+ ". Default: " +:+ d;
                 enum := getAvailableWorkspaces (registry_of env) |}.
Proof.
  intros Hcfg Hmulti.
  assert (Hne : workspaces (registry_of env) <> []).
  { intros Hnil. unfold isMultiWorkspaceMode in Hmulti.
    rewrite Hnil in Hmulti. discriminate. }
  destruct (registry_nonempty_default env Hne) as (d & Hd & Hdne).
  exists d. split; [exact Hd|]. split; [now apply registry_default_key|].
  unfold getWorkspaceParamSchema, WorkspaceApiClientManager.isMultiWorkspace,
    WorkspaceApiClientManager.getAvailableWorkspaces,
    WorkspaceApiClientManager.getDefaultWorkspace.
  apply truthy_true in Hdne. rewrite Hcfg, Hmulti, Hd. simpl. now rewrite Hdne.
Qed.

(** ** Further properties of the client pool *)

Section PoolGrowth.
Context {L : LowerCase}.
Import WorkspaceApiClientManager.

Lemma getOrCreateClient_config w st :
  workspaceConfig (getOrCreateClient w st).2 = workspaceConfig st.
Proof. unfold getOrCreateClient. now destruct (clients st !! name w). Qed.

Lemma getOrCreateClient_heap w st :
  heap (getOrCreateClient w st).2
  = match clients st !! name w with
    | Some _ => heap st
    | None => heap st ++ [{| baseUrl := url w; apiKey := token w |}]
    end.
Proof. unfold getOrCreateClient. now destruct (clients st !! name w). Qed.

Lemma getOrCreateClient_alloc w st :
  pool_alloc st -> pool_alloc (getOrCreateClient w st).2.
Proof.
  intros [Hlt Hinj]. unfold getOrCreateClient.
  destruct (clients st !! name w) as [c|] eqn:E; simpl; [now split|].
  split; simpl.
  - intros n h. rewrite lookup_insert, length_app. simpl.
    case_decide; [intros [= <-]; lia|]. intros Hn. apply Hlt in Hn. lia.
  - intros n1 n2 h. rewrite !lookup_insert.
    repeat case_decide; subst; try congruence.
    + intros [= <-] H2. apply Hlt in H2. lia.
    + intros H1 [= <-]. apply Hlt in H1. lia.
    + apply Hinj.
Qed.

Lemma run_calls_alloc calls st :
  pool_alloc st -> pool_alloc (run_calls calls st).2.
Proof.
  revert st. induction calls as [|w calls IH]; intros st H; [exact H|].
  rewrite run_calls_cons. simpl. apply IH. now apply getOrCreateClient_alloc.
Qed.

Lemma run_calls_result_lookup calls st i wi hi :
  calls !! i = Some wi -> (run_calls calls st).1 !! i = Some hi ->
  clients (run_calls calls st).2 !! name wi = Some hi.
Proof.
  revert st i. induction calls as [|w calls IH]; intros st i Hi.
  - now rewrite lookup_nil in Hi.
  - rewrite run_calls_cons. simpl. destruct i as [|i]; simpl in *.
    + injection Hi as ->. intros [= <-].
      apply run_calls_stable, getOrCreateClient_lookup.
    + now apply IH.
Qed.

Lemma run_calls_length calls st : length (run_calls calls st).1 = length calls.
Proof.
  revert st. induction calls as [|w calls IH]; intros st; [reflexivity|].
  rewrite run_calls_cons. simpl. now rewrite IH.
Qed.

Lemma getClient_unfold n st :
  getClient n st
  = match getWorkspace (workspaceConfig st) n with
    | None => (None, st)
    | Some w => (Some (getOrCreateClient w st).1, (getOrCreateClient w st).2)
    end.
Proof.
  unfold getClient. destruct (getWorkspace (workspaceConfig st) n); [|reflexivity].
  now destruct (getOrCreateClient w st).
Qed.

End PoolGrowth.

(** X12: a call of [getClient] never changes the registry of the
    manager, never removes or replaces a pooled client or a constructed
    object, constructs at most one client, and logs only by appending.
    It returns null exactly when [getInstanceContext] returns null for
    the same name, and then changes nothing. *)
Theorem getClient_only_grows {L : LowerCase} (n : option string) (st : ManagerState) :
  let r := WorkspaceApiClientManager.getClient n st in
  workspaceConfig r.2 = workspaceConfig st
  /\ heap st `prefix_of` heap r.2
  /\ length (heap r.2) <= S (length (heap st))
  /\ debugLog st `prefix_of` debugLog r.2
  /\ (forall n0 h, clients st !! n0 = Some h -> clients r.2 !! n0 = Some h)
  /\ (r.1 = None <-> WorkspaceApiClientManager.getInstanceContext st n = None)
  /\ (r.1 = None -> r.2 = st).
Proof.
  intros r. subst r. rewrite getClient_unfold.
  unfold WorkspaceApiClientManager.getInstanceContext.
  destruct (getWorkspace (workspaceConfig st) n) as [w|]; simpl.
  - split; [apply getOrCreateClient_config|].
    split; [|split; [|split; [|split; [|split]]]].
    + rewrite getOrCreateClient_heap. destruct (clients st !! name w).
      * exists []. now rewrite app_nil_r.
      * now eexists.
    + rewrite getOrCreateClient_heap. destruct (clients st !! name w);
        [lia|rewrite length_app; simpl; lia].
    + unfold WorkspaceApiClientManager.getOrCreateClient.
      destruct (clients st !! name w); simpl.
      * exists []. now rewrite app_nil_r.
      * now eexists.
    + intros n0 h. apply getOrCreateClient_stable.
    + split; discriminate.
    + discriminate.
  - repeat split; try reflexivity; try (exists []; now rewrite app_nil_r); auto.
Qed.

(** X13: different workspace names never share a client. Over any run of
    [getOrCreateClient] calls on a new manager, two calls that return the
    same handle were made for the same name, and every handle returned
    is the address of a constructed object. *)
Theorem run_calls_handles_injective (config : MultiWorkspaceConfig)
    (heap0 : list N8nApiClient) (log0 : list string)
    (calls : list WorkspaceConfig) :
  let r := run_calls calls (WorkspaceApiClientManager.new config heap0 log0) in
  (forall i j wi wj h,
     calls !! i = Some wi -> calls !! j = Some wj ->
     r.1 !! i = Some h -> r.1 !! j = Some h -> name wi = name wj)
  /\ (forall i h, r.1 !! i = Some h -> h < length (heap r.2)).
Proof.
  intros r.
  assert (Halloc : pool_alloc r.2).
  { apply run_calls_alloc. split; simpl.
    - intros n h H. now rewrite lookup_empty in H.
    - intros n1 n2 h H. now rewrite lookup_empty in H. }
  assert (Hlen : length r.1 = length calls) by apply run_calls_length.
  destruct Halloc as [Hlt Hinj]. split.
  - intros i j wi wj h Hi Hj Hhi Hhj.
    apply (Hinj (name wi) (name wj) h).
    + now apply (run_calls_result_lookup calls _ i).
    + now apply (run_calls_result_lookup calls _ j).
  - intros i h Hh.
    destruct (calls !! i) as [wi|] eqn:Hi.
    + apply (Hlt (name wi)). now apply (run_calls_result_lookup calls _ i).
    + apply lookup_ge_None in Hi. apply lookup_lt_Some in Hh. lia.
Qed.

(** X14: the pool does not rebuild a client when the definition changes.
    After a client was created for a name, a call with another definition
    of the same name returns the client built from the first one: the
    object behind the handle keeps the first url and token. *)
Theorem getOrCreateClient_keeps_first (st : ManagerState) (w1 w2 : WorkspaceConfig) :
  clients st !! name w1 = None ->
  name w2 = name w1 ->
  let r1 := WorkspaceApiClientManager.getOrCreateClient w1 st in
  let r2 := WorkspaceApiClientManager.getOrCreateClient w2 r1.2 in
  heap r2.2 !! r2.1 = Some {| baseUrl := url w1; apiKey := token w1 |}
  /\ length (heap r2.2) = S (length (heap st)).
Proof.
  intros Hmiss Hn r1 r2.
  assert (H1 : r1 = (length (heap st),
                     {| clients := <[name w1 := length (heap st)]> (clients st);
                        workspaceConfig := workspaceConfig st;
                        heap := heap st ++ [{| baseUrl := url w1; apiKey := token w1 |}];
                        debugLog := debugLog st
                          ++ [WorkspaceApiClientManager.created_message (name w1)] |})).
  { subst r1. unfold WorkspaceApiClientManager.getOrCreateClient.
    now rewrite Hmiss. }
  assert (H2 : r2 = r1).
  { subst r2. rewrite (getOrCreateClient_hit w2 r1.2 r1.1);
      [now destruct r1|].
    rewrite Hn. apply getOrCreateClient_lookup. }
  rewrite H2, H1. simpl. split.
  - now rewrite list_lookup_middle.
  - rewrite length_app. simpl. lia.
Qed.

Section PoolBinding.
Context {L : LowerCase}.
Import WorkspaceApiClientManager.
Variable env : Env.

Lemma getWorkspace_entry n w :
  getWorkspace (registry_of env) n = Some w ->
  map_get (name w) (workspaces (registry_of env)) = Some w.
Proof.
  unfold getWorkspace. intros H.
  assert (Hk : exists k, map_get k (workspaces (registry_of env)) = Some w).
  { destruct (match toLowerCase <$> n with
              | Some n0 => if truthy n0 then Some n0
                           else defaultWorkspace (registry_of env)
              | None => defaultWorkspace (registry_of env)
              end) as [k|]; [|discriminate].
    destruct (truthy k); [eauto|discriminate]. }
  destruct Hk as (k & Hk). pose proof Hk as Hin.
  apply map_get_Some, registry_entry_name in Hin. now rewrite Hin.
Qed.

Lemma getOrCreateClient_ok w st :
  pool_ok env st ->
  map_get (name w) (workspaces (registry_of env)) = Some w ->
  pool_ok env (getOrCreateClient w st).2.
Proof.
  intros (Hcfg & Halloc & Hbound) Hw.
  split; [now rewrite getOrCreateClient_config|].
  split; [now apply getOrCreateClient_alloc|].
  unfold pool_bound. rewrite getOrCreateClient_config, getOrCreateClient_heap.
  unfold getOrCreateClient.
  destruct (clients st !! name w) as [c|] eqn:E; simpl; [exact Hbound|].
  intros n h. rewrite lookup_insert. case_decide as Hn.
  - intros [= <-]. subst n. exists w. rewrite Hcfg. split; [exact Hw|].
    now rewrite list_lookup_middle.
  - intros Hl. destruct (Hbound n h Hl) as (ws & Hget & Hheap).
    exists ws. split; [exact Hget|].
    rewrite lookup_app_l; [exact Hheap|]. now apply (proj1 Halloc n).
Qed.

Lemma getClient_ok n st : pool_ok env st -> pool_ok env (getClient n st).2.
Proof.
  intros Hok. rewrite getClient_unfold.
  destruct (getWorkspace (workspaceConfig st) n) as [w|] eqn:E; [|exact Hok].
  simpl. apply getOrCreateClient_ok; [exact Hok|].
  apply getWorkspace_entry with n. now rewrite <- (proj1 Hok).
Qed.

Lemma getClient_stable n st n0 h :
  clients st !! n0 = Some h -> clients (getClient n st).2 !! n0 = Some h.
Proof.
  intros H. rewrite getClient_unfold.
  destruct (getWorkspace (workspaceConfig st) n); [|exact H].
  simpl. now apply getOrCreateClient_stable.
Qed.

Lemma getClient_result n st h :
  pool_ok env st -> (getClient n st).1 = Some h ->
  exists w, getWorkspace (registry_of env) n = Some w
            /\ clients (getClient n st).2 !! name w = Some h.
Proof.
  intros (Hcfg & _). rewrite getClient_unfold, Hcfg.
  destruct (getWorkspace (registry_of env) n) as [w|]; [|discriminate].
  simpl. intros [= <-]. exists w. split; [reflexivity|].
  apply getOrCreateClient_lookup.
Qed.

Lemma run_getClient_cons n names st :
  run_getClient (n :: names) st
  = ((getClient n st).1 :: (run_getClient names (getClient n st).2).1,
     (run_getClient names (getClient n st).2).2).
Proof.
  simpl. destruct (getClient n st) as [c st1]. simpl.
  now destruct (run_getClient names st1).
Qed.

Lemma run_getClient_ok names st :
  pool_ok env st -> pool_ok env (run_getClient names st).2.
Proof.
  revert st. induction names as [|n names IH]; intros st H; [exact H|].
  rewrite run_getClient_cons. simpl. apply IH. now apply getClient_ok.
Qed.

Lemma run_getClient_stable names st n0 h :
  clients st !! n0 = Some h ->
  clients (run_getClient names st).2 !! n0 = Some h.
Proof.
  revert st. induction names as [|n names IH]; intros st H; [exact H|].
  rewrite run_getClient_cons. simpl. apply IH. now apply getClient_stable.
Qed.

Lemma run_getClient_result names st i n h :
  pool_ok env st ->
  names !! i = Some n -> (run_getClient names st).1 !! i = Some (Some h) ->
  exists w, getWorkspace (registry_of env) n = Some w
            /\ clients (run_getClient names st).2 !! name w = Some h.
Proof.
  revert st i. induction names as [|n0 names IH]; intros st i Hok Hi.
  - now rewrite lookup_nil in Hi.
  - rewrite run_getClient_cons. simpl. destruct i as [|i]; simpl in *.
    + injection Hi as ->. intros [= Hh].
      destruct (getClient_result n st h Hok Hh) as (w & Hw & Hl).
      exists w. split; [exact Hw|]. now apply run_getClient_stable.
    + apply IH; [now apply getClient_ok|exact Hi].
Qed.

Lemma manager_of_ok : pool_ok env (manager_of env).
Proof.
  split; [reflexivity|]. split; [split|]; simpl.
  - intros n h H. now rewrite lookup_empty in H.
  - intros n1 n2 h H. now rewrite lookup_empty in H.
  - intros n h H. simpl in H. now rewrite lookup_empty in H.
Qed.

Lemma run_getClient_bound names i n h :
  names !! i = Some n ->
  (run_getClient names (manager_of env)).1 !! i = Some (Some h) ->
  exists ws, getWorkspace (registry_of env) n = Some ws
             /\ heap (run_getClient names (manager_of env)).2 !! h
                = Some {| baseUrl := url ws; apiKey := token ws |}.
Proof.
  intros Hi Hh.
  destruct (run_getClient_result names _ i n h manager_of_ok Hi Hh)
    as (w & Hw & Hl).
  destruct (run_getClient_ok names _ manager_of_ok) as (Hcfg & _ & Hbound).
  destruct (Hbound _ _ Hl) as (ws & Hget & Hheap).
  rewrite Hcfg, (getWorkspace_entry n w Hw) in Hget. injection Hget as <-.
  exists w. split; assumption.
Qed.

End PoolBinding.

(** X15: a client obtained through [getClient] is bound to the workspace
    it was asked for. Over any run of [getClient] calls on the manager of
    an environment, every handle returned for a name is the address of a
    client object constructed with the url and the token of the workspace
    that the name resolves to. *)
Theorem getClient_bound_to_workspace {L : LowerCase} (env : Env) (names : list (option string))
    (i : nat) (n : option string) (h : nat) :
  names !! i = Some n ->
  (run_getClient names (manager_of env)).1 !! i = Some (Some h) ->
  exists ws, getWorkspace (registry_of env) n = Some ws
             /\ heap (run_getClient names (manager_of env)).2 !! h
                = Some {| baseUrl := url ws; apiKey := token ws |}.
Proof. apply run_getClient_bound. Qed.

(** ** The module-level singletons *)

Section Singletons.
Context {L : LowerCase}.

Lemma getWorkspaceConfig_miss env p :
  configInstance p = None ->
  getWorkspaceConfig env p
  = (registry_of env,
     {| configInstance := Some (registry_of env); manager := manager p;
        proc_heap := proc_heap p;
        proc_warn := proc_warn p ++ warnings_of env;
        proc_info := proc_info p ++ [describeWorkspaceConfig (registry_of env)];
        proc_debug := proc_debug p |}).
Proof.
  intros H. unfold getWorkspaceConfig, registry_of, warnings_of. rewrite H.
  now destruct (loadWorkspaceConfig env).
Qed.

Lemma getWorkspaceConfig_hit env p config :
  configInstance p = Some config -> getWorkspaceConfig env p = (config, p).
Proof. intros H. unfold getWorkspaceConfig. now rewrite H. Qed.

Lemma getWorkspaceApiClientManager_hit env p mo :
  manager p = Some mo -> getWorkspaceApiClientManager env p = (mo, p).
Proof. intros H. unfold getWorkspaceApiClientManager. now rewrite H. Qed.

Lemma getWorkspaceApiClientManager_new env p :
  manager p = None -> configInstance p = None ->
  getWorkspaceApiClientManager env p
  = ({| mo_clients := ∅; mo_workspaceConfig := registry_of env |},
     {| configInstance := Some (registry_of env);
        manager := Some {| mo_clients := ∅;
                           mo_workspaceConfig := registry_of env |};
        proc_heap := proc_heap p;
        proc_warn := proc_warn p ++ warnings_of env;
        proc_info := proc_info p ++ [describeWorkspaceConfig (registry_of env)];
        proc_debug := proc_debug p |}).
Proof.
  intros Hm Hc. unfold getWorkspaceApiClientManager.
  now rewrite Hm, (getWorkspaceConfig_miss env p Hc).
Qed.

Lemma getWorkspaceApiClientManager_cached env p config :
  manager p = None -> configInstance p = Some config ->
  getWorkspaceApiClientManager env p
  = ({| mo_clients := ∅; mo_workspaceConfig := config |},
     {| configInstance := Some config;
        manager := Some {| mo_clients := ∅; mo_workspaceConfig := config |};
        proc_heap := proc_heap p; proc_warn := proc_warn p;
        proc_info := proc_info p; proc_debug := proc_debug p |}).
Proof.
  intros Hm Hc. unfold getWorkspaceApiClientManager.
  now rewrite Hm, (getWorkspaceConfig_hit env p config Hc), Hc.
Qed.

End Singletons.

(** X16: the registry singleton. The first [getWorkspaceConfig()] loads
    the registry from the environment of that moment, logs the warnings
    of the scan and one info line with the description of the registry.
    A later call returns the same registry and changes nothing, also
    when the environment has changed; after [resetWorkspaceConfig()] the
    next call loads from the environment of its own moment. *)
Theorem getWorkspaceConfig_loads_once {L : LowerCase} (env1 env2 : Env) (p : Process) :
  configInstance p = None ->
  let r1 := getWorkspaceConfig env1 p in
  r1.1 = registry_of env1
  /\ proc_warn r1.2 = proc_warn p ++ warnings_of env1
  /\ proc_info r1.2 = proc_info p ++ [describeWorkspaceConfig (registry_of env1)]
  /\ getWorkspaceConfig env2 r1.2 = (registry_of env1, r1.2)
  /\ (getWorkspaceConfig env2 (resetWorkspaceConfig r1.2)).1 = registry_of env2.
Proof.
  intros Hc r1. subst r1. rewrite (getWorkspaceConfig_miss env1 p Hc).
  cbn [fst snd].
  split; [reflexivity|]. split; [reflexivity|]. split; [reflexivity|].
  split; [reflexivity|].
  now rewrite getWorkspaceConfig_miss.
Qed.

(** X17: the manager singleton. The first
    [getWorkspaceApiClientManager()] of a process builds a manager with
    an empty pool over the registry of the environment; later calls
    return that manager and change nothing. Resetting the manager alone
    does not re-run discovery: the next manager is built over the cached
    registry even if the environment has changed. Only after both resets
    is the registry loaded from the new environment. *)
Theorem manager_singleton_registry {L : LowerCase} (env1 env2 : Env) (p : Process) :
  manager p = None -> configInstance p = None ->
  let r1 := getWorkspaceApiClientManager env1 p in
  mo_workspaceConfig r1.1 = registry_of env1
  /\ mo_clients r1.1 = ∅
  /\ manager r1.2 = Some r1.1
  /\ getWorkspaceApiClientManager env2 r1.2 = r1
  /\ mo_workspaceConfig
       (getWorkspaceApiClientManager env2 (resetWorkspaceApiClientManager r1.2)).1
     = registry_of env1
  /\ proc_info
       (getWorkspaceApiClientManager env2 (resetWorkspaceApiClientManager r1.2)).2
     = proc_info r1.2
  /\ mo_workspaceConfig
       (getWorkspaceApiClientManager env2
          (resetWorkspaceConfig (resetWorkspaceApiClientManager r1.2))).1
     = registry_of env2.
Proof.
  intros Hm Hc r1. subst r1.
  rewrite (getWorkspaceApiClientManager_new env1 p Hm Hc). cbn [fst snd].
  split; [reflexivity|]. split; [reflexivity|]. split; [reflexivity|].
  split; [reflexivity|].
  split; [|split].
  - now erewrite getWorkspaceApiClientManager_cached.
  - now erewrite getWorkspaceApiClientManager_cached.
  - now rewrite getWorkspaceApiClientManager_new.
Qed.

Section SingletonPool.
Context {L : LowerCase}.

Lemma singleton_getClient_unfold env n p :
  Singleton.getClient env n p
  = (let mp := getWorkspaceApiClientManager env p in
     let r := WorkspaceApiClientManager.getClient n (manager_state mp.1 mp.2) in
     (r.1, write_back r.2 mp.2)).
Proof.
  unfold Singleton.getClient.
  destruct (getWorkspaceApiClientManager env p) as [mo p1]. simpl.
  now destruct (WorkspaceApiClientManager.getClient n (manager_state mo p1)).
Qed.

Lemma getClient_miss n st ws :
  getWorkspace (workspaceConfig st) n = Some ws ->
  clients st !! name ws = None ->
  WorkspaceApiClientManager.getClient n st
  = (Some (length (heap st)),
     {| clients := <[name ws := length (heap st)]> (clients st);
        workspaceConfig := workspaceConfig st;
        heap := heap st ++ [{| baseUrl := url ws; apiKey := token ws |}];
        debugLog := debugLog st
          ++ [WorkspaceApiClientManager.created_message (name ws)] |}).
Proof.
  intros Hw Hmiss. rewrite getClient_unfold, Hw.
  unfold WorkspaceApiClientManager.getOrCreateClient. now rewrite Hmiss.
Qed.

Lemma getClient_hit n st ws h :
  getWorkspace (workspaceConfig st) n = Some ws ->
  clients st !! name ws = Some h ->
  WorkspaceApiClientManager.getClient n st = (Some h, st).
Proof.
  intros Hw Hhit. rewrite getClient_unfold, Hw.
  now rewrite (getOrCreateClient_hit ws st h Hhit).
Qed.

End SingletonPool.

(** X18: the pool lives as long as the manager singleton. In a process
    without manager and registry, the first [getClient] for a name that
    resolves constructs one client; a second call returns the same
    handle and changes nothing, also when the environment has changed.
    After [resetWorkspaceApiClientManager()] the pool is gone: the next
    call constructs a second client for the same workspace, under a new
    handle, from the still cached registry. *)
Theorem singleton_pool_lifetime {L : LowerCase} (env env' : Env) (n : option string)
    (ws : WorkspaceConfig) (p : Process) :
  manager p = None -> configInstance p = None ->
  getWorkspace (registry_of env) n = Some ws ->
  let r1 := Singleton.getClient env n p in
  let r2 := Singleton.getClient env' n r1.2 in
  let r3 := Singleton.getClient env' n (resetWorkspaceApiClientManager r1.2) in
  r1.1 = Some (length (proc_heap p))
  /\ proc_heap r1.2
     = proc_heap p ++ [{| baseUrl := url ws; apiKey := token ws |}]
  /\ r2 = r1
  /\ r3.1 = Some (S (length (proc_heap p)))
  /\ proc_heap r3.2
     = proc_heap p ++ [{| baseUrl := url ws; apiKey := token ws |};
                       {| baseUrl := url ws; apiKey := token ws |}].
Proof.
  intros Hm Hc Hw r1 r2 r3.
  assert (H1 : r1 = (Some (length (proc_heap p)),
            {| configInstance := Some (registry_of env);
               manager := Some {| mo_clients := {[name ws := length (proc_heap p)]};
                                  mo_workspaceConfig := registry_of env |};
               proc_heap := proc_heap p
                 ++ [{| baseUrl := url ws; apiKey := token ws |}];
               proc_warn := proc_warn p ++ warnings_of env;
               proc_info := proc_info p
                 ++ [describeWorkspaceConfig (registry_of env)];
               proc_debug := proc_debug p
                 ++ [WorkspaceApiClientManager.created_message (name ws)] |})).
  { subst r1. rewrite singleton_getClient_unfold,
      (getWorkspaceApiClientManager_new env p Hm Hc).
    cbn [fst snd]. rewrite (getClient_miss n _ ws); [reflexivity|exact Hw|].
    apply lookup_empty. }
  assert (H2 : r2 = r1).
  { subst r2. rewrite H1. cbn [snd].
    rewrite singleton_getClient_unfold.
    erewrite getWorkspaceApiClientManager_hit by reflexivity. cbn [fst snd].
    rewrite (getClient_hit n _ ws (length (proc_heap p)));
      [reflexivity|exact Hw|].
    apply lookup_singleton_eq. }
  assert (H3 : r3.1 = Some (S (length (proc_heap p)))
               /\ proc_heap r3.2
                  = proc_heap p ++ [{| baseUrl := url ws; apiKey := token ws |};
                                    {| baseUrl := url ws; apiKey := token ws |}]).
  { subst r3. rewrite H1. cbn [snd].
    rewrite singleton_getClient_unfold.
    erewrite getWorkspaceApiClientManager_cached by reflexivity. cbn [fst snd].
    rewrite (getClient_miss n _ ws); [|exact Hw|apply lookup_empty].
    unfold write_back, manager_state, resetWorkspaceApiClientManager.
    cbn [fst snd proc_heap heap]. split.
    - rewrite length_app. simpl. f_equal. lia.
    - now rewrite <- app_assoc. }
  rewrite H1 at 1 2. cbn [fst snd proc_heap].
  split; [reflexivity|]. split; [reflexivity|]. split; [exact H2|exact H3].
Qed.


(** X20: the exported helpers on first use. In a process without manager
    and registry, [resolveWorkspaceContext], [shouldShowWorkspaceParam]
    and [getWorkspaceParamSchema] answer from the registry loaded from
    the environment, build the manager with an empty pool, log the
    description of the registry once and construct no client. *)
Theorem singleton_helpers_first_use {L : LowerCase} (env : Env) (n : option string) (p : Process) :
  manager p = None -> configInstance p = None ->
  let r := Singleton.resolveWorkspaceContext env n p in
  r.1 = resolveWorkspaceContext (manager_of env) n
  /\ (Singleton.shouldShowWorkspaceParam env p).1
     = isMultiWorkspaceMode (registry_of env)
  /\ (Singleton.getWorkspaceParamSchema env p).1
     = getWorkspaceParamSchema (manager_of env)
  /\ (Singleton.shouldShowWorkspaceParam env p).2 = r.2
  /\ (Singleton.getWorkspaceParamSchema env p).2 = r.2
  /\ manager r.2
     = Some {| mo_clients := ∅; mo_workspaceConfig := registry_of env |}
  /\ configInstance r.2 = Some (registry_of env)
  /\ proc_heap r.2 = proc_heap p
  /\ proc_debug r.2 = proc_debug p
  /\ proc_info r.2 = proc_info p ++ [describeWorkspaceConfig (registry_of env)].
Proof.
  intros Hm Hc r. subst r.
  unfold Singleton.resolveWorkspaceContext, Singleton.shouldShowWorkspaceParam,
    Singleton.getWorkspaceParamSchema.
  rewrite (getWorkspaceApiClientManager_new env p Hm Hc).
  cbn [fst snd]. repeat split.
Qed.

(** ** Variables that discovery does not read *)

Section Unrelated.
Context {L : LowerCase}.

Lemma env_get_insert_ne (env1 env2 : Env) (k v key : string) :
  key <> k ->
  env_get (env1 ++ (k, v) :: env2) key = env_get (env1 ++ env2) key.
Proof.
  intros Hne. induction env1 as [|[k1 v1] env1 IH]; simpl.
  - destruct (String.eqb_spec k key); [congruence|reflexivity].
  - now rewrite IH.
Qed.

Lemma scan_step_ext (e1 e2 : Env) st x :
  (forall s, env_get e1 (tokenPrefix +:+ s) = env_get e2 (tokenPrefix +:+ s)) ->
  scan_step e1 st x = scan_step e2 st x.
Proof.
  intros H. unfold scan_step. destruct st as [ws log], x as [kx vx].
  now rewrite H.
Qed.

Lemma scan_fold_ext (e1 e2 l : Env) st :
  (forall s, env_get e1 (tokenPrefix +:+ s) = env_get e2 (tokenPrefix +:+ s)) ->
  fold_left (scan_step e1) l st = fold_left (scan_step e2) l st.
Proof.
  intros H. revert st. induction l as [|x l IH]; intros st; [reflexivity|].
  cbn [fold_left]. now rewrite IH, (scan_step_ext e1 e2 st x H).
Qed.

Lemma not_n8n_key (k : string) :
  startsWith k "N8N_" = false ->
  startsWith k urlPrefix = false
  /\ (forall s, tokenPrefix +:+ s <> k)
  /\ "N8N_API_URL" <> k /\ "N8N_API_KEY" <> k /\ "N8N_DEFAULT_WORKSPACE" <> k.
Proof.
  intros H. split; [|repeat split]; try (intros <-; discriminate).
  - destruct (startsWith k urlPrefix) eqn:E; [|reflexivity].
    apply startsWith_split in E. rewrite E in H. discriminate.
  - intros s <-. discriminate.
Qed.

End Unrelated.

(** X21: discovery reads only [N8N_] variables. Adding or removing, at
    any position, a variable whose key does not start with [N8N_] changes
    neither the registry, nor its default, nor the warnings of a load. *)
Theorem unrelated_variable_ignored {L : LowerCase} (env1 env2 : Env) (k v : string) :
  startsWith k "N8N_" = false ->
  loadWorkspaceConfig (env1 ++ (k, v) :: env2) = loadWorkspaceConfig (env1 ++ env2).
Proof.
  intros Hk. destruct (not_n8n_key k Hk) as (Hurl & Htok & Hu & Hkey & Hd).
  assert (Hget : forall key, key <> k ->
            env_get (env1 ++ (k, v) :: env2) key = env_get (env1 ++ env2) key)
    by (intros key; apply env_get_insert_ne).
  assert (Hscan : scan (env1 ++ (k, v) :: env2) = scan (env1 ++ env2)).
  { unfold scan.
    rewrite (scan_fold_ext (env1 ++ (k, v) :: env2) (env1 ++ env2))
      by (intros s; apply Hget, Htok).
    rewrite !fold_left_app. cbn [fold_left]. f_equal.
    destruct (fold_left (scan_step (env1 ++ env2)) env1 ([], [])) as [ws log].
    unfold scan_step. now rewrite Hurl. }
  unfold loadWorkspaceConfig. rewrite Hscan.
  destruct (scan (env1 ++ env2)) as [ws log].
  unfold fallback, determine_default. now rewrite !Hget by assumption.
Qed.

(** ** ASCII environments *)

(** On an environment of ASCII strings, and on an ASCII name, every
    lower-casing gives what [ascii_LowerCase] gives: the concrete
    scenarios below, computed with [ascii_LowerCase], hold for every
    [LowerCase]. *)
Section AsciiEnvironments.
Context {L : LowerCase}.

Lemma is_ascii_substring (n : nat) (s : string) :
  is_ascii s = true -> is_ascii (substring n s) = true.
Proof.
  revert s. induction n as [|n IH]; intros [|c s] H; simpl; auto.
  simpl in H. apply andb_true_iff in H as [_ H]. auto.
Qed.

Lemma scan_step_ascii (env : Env) st (e : string * string) :
  is_ascii e.1 = true ->
  scan_step (L := L) env st e = scan_step (L := ascii_LowerCase) env st e.
Proof.
  intros He. unfold scan_step. destruct st as [ws log], e as [k v].
  simpl in He.
  now rewrite (toLowerCase_ascii _ (is_ascii_substring _ k He)).
Qed.

Lemma scan_fold_ascii (env l : Env) st :
  ascii_env l = true ->
  fold_left (scan_step (L := L) env) l st
  = fold_left (scan_step (L := ascii_LowerCase) env) l st.
Proof.
  revert st. induction l as [|e l IH]; intros st Hl; [reflexivity|].
  simpl in Hl. apply andb_true_iff in Hl as [He Hl].
  apply andb_true_iff in He as [He _].
  cbn [fold_left]. now rewrite IH, scan_step_ascii.
Qed.

Lemma env_get_ascii (env : Env) (k v : string) :
  ascii_env env = true -> env_get env k = Some v -> is_ascii v = true.
Proof.
  induction env as [|[k' v'] env IH]; simpl; [discriminate|].
  intros H. apply andb_true_iff in H as [He Hl].
  apply andb_true_iff in He as [_ Hv].
  destruct (String.eqb k' k); [now intros [= <-]|auto].
Qed.

Lemma load_ascii_env (env : Env) :
  ascii_env env = true ->
  loadWorkspaceConfig (L := L) env
  = loadWorkspaceConfig (L := ascii_LowerCase) env.
Proof.
  intros Henv. unfold loadWorkspaceConfig, scan.
  rewrite scan_fold_ascii by exact Henv.
  destruct (fold_left (scan_step env) env ([], [])) as [ws log].
  f_equal. f_equal. unfold determine_default.
  destruct (env_get env "N8N_DEFAULT_WORKSPACE") as [d|] eqn:E; [|reflexivity].
  simpl. now rewrite (toLowerCase_ascii d (env_get_ascii env _ d Henv E)).
Qed.

Lemma registry_ascii_env (env : Env) :
  ascii_env env = true ->
  registry_of (L := L) env = registry_of (L := ascii_LowerCase) env
  /\ warnings_of (L := L) env = warnings_of (L := ascii_LowerCase) env.
Proof.
  intros Henv. unfold registry_of, warnings_of.
  now rewrite (load_ascii_env env Henv).
Qed.

Lemma getWorkspace_ascii_name (config : MultiWorkspaceConfig)
    (n : option string) :
  (forall s, n = Some s -> is_ascii s = true) ->
  getWorkspace (L := L) config n
  = getWorkspace (L := ascii_LowerCase) config n.
Proof.
  intros Hn. unfold getWorkspace. destruct n as [s|]; [|reflexivity].
  simpl. now rewrite (toLowerCase_ascii s (Hn s eq_refl)).
Qed.

End AsciiEnvironments.

(** ** Concrete scenarios, witnesses and counterexamples *)

(** The scenarios use ASCII names only and are computed with the ASCII
    lower-casing. *)
#[local] Existing Instance ascii_LowerCase.

Example scenario_A :
  let cfg := registry_of [("N8N_URL_PERSONAL", "https://a"); ("N8N_TOKEN_PERSONAL", "tok-a")] in
  map_keys (workspaces cfg) = ["personal"]
  /\ defaultWorkspace cfg = Some "personal"
  /\ instanceId <$> (workspaceToInstanceContext <$> getWorkspace cfg None)
     = Some "workspace-personal".
Proof. vm_compute. auto. Qed.

Example scenario_B :
  let cfg := registry_of
    [("N8N_URL_A", "u1"); ("N8N_TOKEN_A", "t1"); ("N8N_URL_B", "u2");
     ("N8N_TOKEN_B", "t2"); ("N8N_DEFAULT_WORKSPACE", "b")] in
  getAvailableWorkspaces cfg = ["a"; "b"]
  /\ defaultWorkspace cfg = Some "b"
  /\ name <$> getWorkspace cfg (Some "A") = Some "a".
Proof. vm_compute. auto. Qed.

Example scenario_C :
  let cfg := registry_of [("N8N_URL_X", "u")] in
  workspaces cfg = [] /\ getWorkspace cfg None = None
  /\ warnings_of [("N8N_URL_X", "u")]
     = ["Workspace 'x' has URL but missing token (N8N_TOKEN_X), skipping"].
Proof. vm_compute. auto. Qed.

Example scenario_B_schema :
  getWorkspaceParamSchema (manager_of
    [("N8N_URL_A", "u1"); ("N8N_TOKEN_A", "t1"); ("N8N_URL_B", "u2");
     ("N8N_TOKEN_B", "t2"); ("N8N_DEFAULT_WORKSPACE", "b")])
  = Some {| type := "string";
            description := "Workspace to use. Available: a, b. Default: b";
            enum := ["a"; "b"] |}.
Proof. vm_compute. reflexivity. Qed.

Example scenario_C_message :
  WorkspaceApiClientManager.getWorkspaceNotFoundError
    (manager_of [("N8N_URL_X", "u")]) (Some "Prod")
  = "Workspace 'Prod' not found. Available workspaces: none".
Proof. vm_compute. reflexivity. Qed.

(** C2, as stated, at an environment with two URL variables whose
    suffixes differ only in case: both pairs are valid, the suffixes
    [A] and [a] are distinct, and the registry has a single entry. *)
Lemma registry_size_distinct_suffixes_counterexample :
  let env := [("N8N_URL_A", "u1"); ("N8N_TOKEN_A", "t1");
              ("N8N_URL_a", "u2"); ("N8N_TOKEN_a", "t2")] in
  valid_suffixes env = ["A"; "a"]
  /\ length (remove_dups (valid_suffixes env)) = 2
  /\ map_size (workspaces (registry_of env)) = 1
  /\ map_size (workspaces (registry_of env))
     <> length (remove_dups (valid_suffixes env)).
Proof. vm_compute. repeat split; discriminate. Qed.

Lemma registry_size_distinct_names_witness :
  let env := [("N8N_URL_A", "u1"); ("N8N_TOKEN_A", "t1");
              ("N8N_URL_a", "u2"); ("N8N_TOKEN_a", "t2");
              ("N8N_URL_B", "u3"); ("N8N_TOKEN_B", "t3")] in
  map_size (workspaces (registry_of env))
  = length (remove_dups (toLowerCase <$> valid_suffixes env))
  /\ Forall is_lower (map_keys (workspaces (registry_of env))).
Proof.
  intros env. apply (registry_size_distinct_names env).
  exists "A", "u1". unfold valid_pair.
  split; [simpl; auto|]. split; [discriminate|]. split; [discriminate|].
  exists "t1". split; [reflexivity|discriminate].
Defined.

Lemma default_workspace_selection_witness :
  let env := [("N8N_URL_A", "u1"); ("N8N_TOKEN_A", "t1"); ("N8N_URL_B", "u2");
              ("N8N_TOKEN_B", "t2"); ("N8N_DEFAULT_WORKSPACE", "B")] in
  defaultWorkspace (registry_of env) = Some "b"
  /\ map_has "b" (workspaces (registry_of env)) = true.
Proof.
  intros env.
  destruct (default_workspace_selection env) as (Hsel & _ & _ & Hkey).
  assert (Hd : defaultWorkspace (registry_of env) = Some "b")
    by (apply Hsel; reflexivity).
  split; [exact Hd|exact (Hkey "b" Hd)].
Defined.

(** C4, as stated, at an environment where [N8N_URL_DEFAULT] has no
    paired credential and the single-instance fallback applies: the
    lower-cased name [default] is a key of the registry. *)
Lemma url_without_token_name_present_counterexample :
  let env := [("N8N_URL_DEFAULT", "https://x");
              ("N8N_API_URL", "https://f"); ("N8N_API_KEY", "k")] in
  In (urlPrefix +:+ "DEFAULT", "https://x") env
  /\ env_get env (tokenPrefix +:+ "DEFAULT") = None
  /\ map_has (toLowerCase "DEFAULT") (workspaces (registry_of env)) = true.
Proof. vm_compute. auto. Qed.

Lemma url_without_token_dropped_witness :
  let env := [("N8N_URL_X", "u"); ("N8N_URL_A", "u1"); ("N8N_TOKEN_A", "t1")] in
  (forall k ws, In (k, ws) (workspaces (registry_of env)) ->
     urlEnvVar ws <> urlPrefix +:+ "X")
  /\ In (missing_token_warning (toLowerCase "X") (tokenPrefix +:+ "X"))
        (warnings_of env).
Proof.
  intros env.
  destruct (url_without_token_dropped env "X" "u") as (Hno & Hwarn & _).
  - simpl. auto.
  - discriminate.
  - reflexivity.
  - split; [exact Hno|exact Hwarn].
Defined.

Lemma fallback_default_entry_witness :
  let env := [("N8N_URL_X", "u"); ("N8N_API_URL", "https://f");
              ("N8N_API_KEY", "key")] in
  workspaces (registry_of env)
  = [("default",
      {| name := "default"; url := "https://f"; token := "key";
         urlEnvVar := "N8N_API_URL"; tokenEnvVar := "N8N_API_KEY" |})]
  /\ map_size (workspaces (registry_of env)) = 1.
Proof.
  intros env. apply (fallback_default_entry env "https://f" "key").
  - reflexivity.
  - reflexivity.
  - discriminate.
  - reflexivity.
  - discriminate.
Defined.

(** C10, as stated, at an environment whose only variable is [N8N_URL_]:
    no entry is created, and the missing-token diagnostic is emitted for
    the candidate with the empty name. *)
Lemma empty_name_diagnostic_counterexample :
  let env := [("N8N_URL_", "https://x")] in
  workspaces (registry_of env) = []
  /\ warnings_of env
     = ["Workspace '' has URL but missing token (N8N_TOKEN_), skipping"]
  /\ In (missing_token_warning "" "N8N_TOKEN_") (warnings_of env).
Proof. vm_compute. auto. Qed.

Lemma empty_name_skipped_witness :
  let env := [("N8N_URL_", "https://x"); ("N8N_TOKEN_", "secret")] in
  map_has "" (workspaces (registry_of env)) = false
  /\ ~ In (missing_token_warning "" tokenPrefix) (warnings_of env).
Proof.
  intros env.
  destruct (empty_name_skipped env "https://x") as (Hno & _ & Hwarn).
  - simpl. auto.
  - discriminate.
  - split; [exact Hno|]. intros Hw. apply Hwarn in Hw. discriminate.
Defined.

Lemma getOrCreateClient_one_client_per_name_witness :
  let a1 := {| name := "a"; url := "u1"; token := "t1";
               urlEnvVar := "N8N_URL_A"; tokenEnvVar := "N8N_TOKEN_A" |} in
  let a2 := {| name := "a"; url := "u2"; token := "t2";
               urlEnvVar := "N8N_URL_a"; tokenEnvVar := "N8N_TOKEN_a" |} in
  let st := WorkspaceApiClientManager.new
              {| workspaces := [("a", a1)]; defaultWorkspace := Some "a" |} [] [] in
  let r1 := WorkspaceApiClientManager.getOrCreateClient a1 st in
  let r2 := WorkspaceApiClientManager.getOrCreateClient a2 r1.2 in
  r2.1 = r1.1 /\ r2.2 = r1.2.
Proof.
  intros a1 a2 st.
  apply (proj1 getOrCreateClient_one_client_per_name st a1 a2).
  reflexivity.
Defined.

(** C6, as stated, at the empty string as supplied name: it is not a key
    of the registry, yet resolution yields the context of the default
    workspace, and the not-found message for it does not list the
    available names. *)
Lemma resolve_absent_empty_name_counterexample :
  let env := [("N8N_URL_A", "u1"); ("N8N_TOKEN_A", "t1")] in
  let m := manager_of env in
  map_has (toLowerCase "") (workspaces (registry_of env)) = false
  /\ resolveWorkspaceContext m (Some "")
     = Some {| n8nApiUrl := "u1"; n8nApiKey := "t1";
               instanceId := "workspace-a" |}
  /\ WorkspaceApiClientManager.getWorkspaceNotFoundError m (Some "")
     = no_workspace_configured.
Proof. vm_compute. auto. Qed.

Lemma resolve_unknown_workspace_witness :
  let env := [("N8N_URL_A", "u1"); ("N8N_TOKEN_A", "t1");
              ("N8N_URL_B", "u2"); ("N8N_TOKEN_B", "t2")] in
  resolveWorkspaceContext (manager_of env) (Some "Prod") = None
  /\ WorkspaceApiClientManager.getWorkspaceNotFoundError (manager_of env) (Some "Prod")
     = "Workspace 'Prod' not found. Available workspaces: a, b".
Proof.
  intros env.
  destruct (resolve_unknown_workspace env (manager_of env) eq_refl) as [Hname _].
  destruct (Hname "Prod") as (Hctx & _ & Hmsg).
  - discriminate.
  - reflexivity.
  - split; [exact Hctx|exact Hmsg].
Defined.

Lemma resolve_known_workspace_witness :
  let env := [("N8N_URL_A", "u1"); ("N8N_TOKEN_A", "t1"); ("N8N_URL_B", "u2");
              ("N8N_TOKEN_B", "t2"); ("N8N_DEFAULT_WORKSPACE", "b")] in
  (exists ws,
     map_get (toLowerCase "A") (workspaces (registry_of env)) = Some ws
     /\ name ws = toLowerCase "A"
     /\ resolveWorkspaceContext (manager_of env) (Some "A")
        = Some {| n8nApiUrl := url ws; n8nApiKey := token ws;
                  instanceId := "workspace-" +:+ toLowerCase "A" |})
  /\ resolveWorkspaceContext (manager_of env) (Some "A")
     = resolveWorkspaceContext (manager_of env) (Some "a").
Proof.
  intros env.
  destruct (resolve_known_workspace env (manager_of env) eq_refl)
    as (Hname & _ & Hcase).
  split; [apply Hname; reflexivity|apply Hcase; reflexivity].
Defined.

Lemma registry_entry_invariant_witness :
  let env := [("N8N_URL_Prod", "https://p"); ("N8N_TOKEN_Prod", "tp")] in
  let ws := {| name := "prod"; url := "https://p"; token := "tp";
               urlEnvVar := "N8N_URL_Prod"; tokenEnvVar := "N8N_TOKEN_Prod" |} in
  In ("prod", ws) (workspaces (registry_of env))
  /\ name ws = "prod" /\ "prod" <> "" /\ is_lower "prod"
  /\ url ws <> "" /\ token ws <> "".
Proof.
  intros env ws.
  assert (Hin : In ("prod", ws) (workspaces (registry_of env)))
    by (simpl; auto).
  split; [exact Hin|].
  exact (proj2 (registry_entry_invariant env) "prod" ws Hin).
Defined.

Lemma registry_empty_iff_witness :
  let env := [("N8N_URL_X", "u"); ("N8N_API_URL", "https://f")] in
  defaultWorkspace (registry_of env) = None
  /\ forall n, getWorkspace (registry_of env) n = None.
Proof.
  intros env. apply (proj2 (registry_empty_iff env)). reflexivity.
Defined.

Lemma scanned_registry_provenance_witness :
  let env := [("N8N_API_URL", "https://f"); ("N8N_API_KEY", "k");
              ("N8N_URL_A", "u1"); ("N8N_TOKEN_A", "t1")] in
  let ws := {| name := "a"; url := "u1"; token := "t1";
               urlEnvVar := "N8N_URL_A"; tokenEnvVar := "N8N_TOKEN_A" |} in
  exists NAME,
    "a" = toLowerCase NAME
    /\ urlEnvVar ws = urlPrefix +:+ NAME
    /\ tokenEnvVar ws = tokenPrefix +:+ NAME
    /\ In (urlEnvVar ws, url ws) env
    /\ env_get env (tokenEnvVar ws) = Some (token ws)
    /\ urlEnvVar ws <> "N8N_API_URL".
Proof.
  intros env ws. apply (scanned_registry_provenance env "A" "u1").
  - unfold valid_pair. split; [simpl; auto|].
    split; [discriminate|]. split; [discriminate|].
    exists "t1". split; [reflexivity|discriminate].
  - simpl. auto.
Defined.

Lemma last_valid_pair_wins_witness :
  let env := [("N8N_URL_Prod", "u1"); ("N8N_TOKEN_Prod", "t1");
              ("N8N_URL_PROD", "u2"); ("N8N_TOKEN_PROD", "t2")] in
  map_get (toLowerCase "PROD") (workspaces (registry_of env))
  = Some {| name := toLowerCase "PROD"; url := "u2"; token := "t2";
            urlEnvVar := urlPrefix +:+ "PROD";
            tokenEnvVar := tokenPrefix +:+ "PROD" |}.
Proof.
  intros env.
  apply (last_valid_pair_wins env
           [("N8N_URL_Prod", "u1"); ("N8N_TOKEN_Prod", "t1")]
           [("N8N_TOKEN_PROD", "t2")] "PROD" "u2" "t2").
  - reflexivity.
  - discriminate.
  - discriminate.
  - reflexivity.
  - discriminate.
  - intros N HN. vm_compute in HN. now apply elem_of_nil in HN.
Defined.


Lemma single_workspace_mode_witness :
  let env := [("N8N_URL_PERSONAL", "https://a"); ("N8N_TOKEN_PERSONAL", "tok-a");
              ("N8N_DEFAULT_WORKSPACE", "other")] in
  defaultWorkspace (registry_of env) = Some "personal"
  /\ resolveWorkspaceContext (manager_of env) None
     = Some {| n8nApiUrl := "https://a"; n8nApiKey := "tok-a";
               instanceId := "workspace-personal" |}.
Proof.
  intros env.
  destruct (single_workspace_mode (L := ascii_LowerCase) env
              (manager_of (L := ascii_LowerCase) env) "personal"
              {| name := "personal"; url := "https://a"; token := "tok-a";
                 urlEnvVar := "N8N_URL_PERSONAL";
                 tokenEnvVar := "N8N_TOKEN_PERSONAL" |} eq_refl eq_refl)
    as (Hd & Hctx & _).
  split; [exact Hd|exact Hctx].
Defined.

Lemma instanceId_separates_workspaces_witness :
  let env := [("N8N_URL_A", "u1"); ("N8N_TOKEN_A", "t1");
              ("N8N_URL_B", "u2"); ("N8N_TOKEN_B", "t2")] in
  let c1 := {| n8nApiUrl := "u1"; n8nApiKey := "t1";
               instanceId := "workspace-a" |} in
  let c2 := {| n8nApiUrl := "u2"; n8nApiKey := "t2";
               instanceId := "workspace-b" |} in
  instanceId c1 = instanceId c2 <-> toLowerCase "A" = toLowerCase "b".
Proof.
  intros env c1 c2.
  destruct (instanceId_separates_workspaces env (manager_of env) eq_refl)
    as [_ Hsep].
  apply (Hsep "A" "b" c1 c2).
  - discriminate.
  - discriminate.
  - reflexivity.
  - reflexivity.
Defined.

Lemma describe_classification_witness :
  let env := [("N8N_URL_PERSONAL", "https://a"); ("N8N_TOKEN_PERSONAL", "tok-a")] in
  exists d,
    defaultWorkspace (registry_of env) = Some d
    /\ describeWorkspaceConfig (registry_of env)
       = "Workspace config: Multi-workspace mode" +:+ newline
           +:+ "  Available: "
           +:+ join ", " (getAvailableWorkspaces (registry_of env))
           +:+ newline +:+ "  Default: " +:+ d.
Proof.
  intros env.
  destruct (describe_classification (registry_of env) env) as (_ & _ & Hmulti).
  apply Hmulti; discriminate.
Defined.

Lemma schema_documents_default_witness :
  let env := [("N8N_URL_A", "u1"); ("N8N_TOKEN_A", "t1");
              ("N8N_URL_B", "u2"); ("N8N_TOKEN_B", "t2")] in
  exists d,
    defaultWorkspace (registry_of env) = Some d
    /\ map_has d (workspaces (registry_of env)) = true
    /\ getWorkspaceParamSchema (manager_of env)
       = Some {| type := "string";
                 description :=
                   "Workspace to use. Available: "
                     +:+ join ", " (getAvailableWorkspaces (registry_of env))
                     +:+ ". Default: " +:+ d;
                 enum := getAvailableWorkspaces (registry_of env) |}.
Proof.
  intros env.
  apply (schema_documents_default env (manager_of env)); reflexivity.
Defined.

Lemma run_calls_handles_injective_witness :
  let a := {| name := "a"; url := "u1"; token := "t1";
              urlEnvVar := "N8N_URL_A"; tokenEnvVar := "N8N_TOKEN_A" |} in
  let b := {| name := "b"; url := "u1"; token := "t1";
              urlEnvVar := "N8N_URL_B"; tokenEnvVar := "N8N_TOKEN_B" |} in
  let config := {| workspaces := [("a", a); ("b", b)];
                   defaultWorkspace := Some "a" |} in
  let r := run_calls [a; b; a] (WorkspaceApiClientManager.new config [] []) in
  r.1 = [0; 1; 0] /\ name a = name a.
Proof.
  intros a b config r. split; [reflexivity|].
  apply (proj1 (run_calls_handles_injective config [] [] [a; b; a]) 0 2 a a 0);
    reflexivity.
Defined.

Lemma getOrCreateClient_keeps_first_witness :
  let w1 := {| name := "a"; url := "u1"; token := "t1";
               urlEnvVar := "N8N_URL_A"; tokenEnvVar := "N8N_TOKEN_A" |} in
  let w2 := {| name := "a"; url := "u2"; token := "t2";
               urlEnvVar := "N8N_URL_A"; tokenEnvVar := "N8N_TOKEN_A" |} in
  let st := WorkspaceApiClientManager.new
              {| workspaces := [("a", w1)]; defaultWorkspace := Some "a" |} [] [] in
  let r1 := WorkspaceApiClientManager.getOrCreateClient w1 st in
  let r2 := WorkspaceApiClientManager.getOrCreateClient w2 r1.2 in
  heap r2.2 !! r2.1 = Some {| baseUrl := "u1"; apiKey := "t1" |}
  /\ length (heap r2.2) = 1.
Proof.
  intros w1 w2 st.
  apply (getOrCreateClient_keeps_first st w1 w2).
  - reflexivity.
  - reflexivity.
Defined.

Lemma getClient_bound_to_workspace_witness :
  let env := [("N8N_URL_A", "u1"); ("N8N_TOKEN_A", "t1");
              ("N8N_URL_B", "u2"); ("N8N_TOKEN_B", "t2")] in
  let names := [Some "B"; None; Some "zzz"; Some "b"] in
  exists ws, getWorkspace (registry_of env) (Some "b") = Some ws
             /\ heap (run_getClient names (manager_of env)).2 !! 0
                = Some {| baseUrl := url ws; apiKey := token ws |}.
Proof.
  intros env names.
  apply (getClient_bound_to_workspace env names 3 (Some "b") 0); reflexivity.
Defined.

Lemma getWorkspaceConfig_loads_once_witness :
  let env1 := [("N8N_URL_A", "u1"); ("N8N_TOKEN_A", "t1")] in
  let env2 := [("N8N_URL_B", "u2"); ("N8N_TOKEN_B", "t2")] in
  let r1 := getWorkspaceConfig env1 fresh_process in
  getWorkspaceConfig env2 r1.2 = (registry_of env1, r1.2)
  /\ (getWorkspaceConfig env2 (resetWorkspaceConfig r1.2)).1 = registry_of env2.
Proof.
  intros env1 env2.
  destruct (getWorkspaceConfig_loads_once env1 env2 fresh_process eq_refl)
    as (_ & _ & _ & Hsame & Hreset).
  split; [exact Hsame|exact Hreset].
Defined.

Lemma manager_singleton_registry_witness :
  let env1 := [("N8N_URL_A", "u1"); ("N8N_TOKEN_A", "t1")] in
  let env2 := [("N8N_URL_B", "u2"); ("N8N_TOKEN_B", "t2")] in
  let r1 := getWorkspaceApiClientManager env1 fresh_process in
  mo_workspaceConfig
    (getWorkspaceApiClientManager env2 (resetWorkspaceApiClientManager r1.2)).1
  = registry_of env1
  /\ mo_workspaceConfig
       (getWorkspaceApiClientManager env2
          (resetWorkspaceConfig (resetWorkspaceApiClientManager r1.2))).1
     = registry_of env2.
Proof.
  intros env1 env2.
  destruct (manager_singleton_registry env1 env2 fresh_process eq_refl eq_refl)
    as (_ & _ & _ & _ & Hstale & _ & Hfresh).
  split; [exact Hstale|exact Hfresh].
Defined.

Lemma singleton_pool_lifetime_witness :
  let env := [("N8N_URL_A", "u1"); ("N8N_TOKEN_A", "t1")] in
  let env' := [("N8N_URL_A", "other"); ("N8N_TOKEN_A", "secret")] in
  let r1 := Singleton.getClient env (Some "a") fresh_process in
  let r2 := Singleton.getClient env' (Some "a") r1.2 in
  let r3 := Singleton.getClient env' (Some "a")
              (resetWorkspaceApiClientManager r1.2) in
  r1.1 = Some 0 /\ r2 = r1 /\ r3.1 = Some 1
  /\ proc_heap r3.2 = [{| baseUrl := "u1"; apiKey := "t1" |};
                       {| baseUrl := "u1"; apiKey := "t1" |}].
Proof.
  intros env env'.
  destruct (singleton_pool_lifetime (L := ascii_LowerCase) env env' (Some "a")
              {| name := "a"; url := "u1"; token := "t1";
                 urlEnvVar := "N8N_URL_A"; tokenEnvVar := "N8N_TOKEN_A" |}
              fresh_process eq_refl eq_refl eq_refl)
    as (H1 & _ & H2 & H3 & H4).
  split; [exact H1|]. split; [exact H2|]. split; [exact H3|exact H4].
Defined.


Lemma singleton_helpers_first_use_witness :
  let env := [("N8N_URL_A", "u1"); ("N8N_TOKEN_A", "t1");
              ("N8N_URL_B", "u2"); ("N8N_TOKEN_B", "t2")] in
  (Singleton.resolveWorkspaceContext env (Some "B") fresh_process).1
  = resolveWorkspaceContext (manager_of env) (Some "B")
  /\ (Singleton.shouldShowWorkspaceParam env fresh_process).1
     = isMultiWorkspaceMode (registry_of env).
Proof.
  intros env.
  destruct (singleton_helpers_first_use env (Some "B") fresh_process
              eq_refl eq_refl) as (H1 & H2 & _).
  split; [exact H1|exact H2].
Defined.

Lemma unrelated_variable_ignored_witness :
  loadWorkspaceConfig
    [("PATH", "/usr/bin"); ("N8N_URL_A", "u1"); ("N8N_TOKEN_A", "t1")]
  = loadWorkspaceConfig [("N8N_URL_A", "u1"); ("N8N_TOKEN_A", "t1")].
Proof.
  apply (unrelated_variable_ignored []
           [("N8N_URL_A", "u1"); ("N8N_TOKEN_A", "t1")] "PATH" "/usr/bin").
  reflexivity.
Defined.
